(** * VNExpress summary bot: a shallow embedding of [main.py]

    The development follows the source file class by class:
    [DatabaseManager], [VNExpressCrawler], [GroqSummarizer],
    [TelegramPoster] and the orchestrator [process_articles].

    Conventions of the embedding.
    - A Python [str] is its UTF-8 byte sequence, a Rocq [string].  The
      operations the program uses ([+], [" ".join], [split(".")],
      [strip()], truthiness) act on the encoding exactly as they act on
      the code points, because the separators are ASCII and UTF-8 is
      prefix free.
    - Every coroutine is a state transformer [M A]: it takes the program
      state and gives back the new state with a result, which is a
      returned value or a raised exception.  The state is returned in
      both cases, so what was done before an exception is kept.
    - The retry of [summarize] is a nested call, and the interpreter
      admits only so many nested calls: [summarize] takes the number of
      requests that this frame limit still admits.  When it is used up,
      the next call inside the [try] raises [RecursionError], which is
      an [Exception], and the [except] of [summarize] catches it.
    - The network, the generation service, the chat API, the database
      engine and the clock are the fields of a [World].  Each answer may
      depend on the request and on the number of interactions made so
      far, so a service may answer the same request differently each
      time.
    - The state carries a ghost [trace] of the interactions, newest first.
    - [asyncio.gather] runs its tasks in list order here; each task
      ([process_article]) makes one request and touches nothing shared.
    - [logger] calls and [asyncio.sleep] have no effect on the data and
      are left out.  Only exceptions derived from [Exception] are
      modelled; task cancellation is outside the model. *)

From stdpp Require Import base option list strings gmap pretty.
From Stdlib Require Import Ascii String Lia.

Open Scope string_scope.
Open Scope list_scope.

(** ** Python strings *)

Module PyStr.

Definition byte (n : nat) : ascii := ascii_of_nat n.
Definition bytes (l : list nat) : string := string_of_list_ascii (map byte l).

Definition nl : string := bytes [10].

(** [bool(s)] for a [str]. *)
Definition nonempty (s : string) : bool :=
  match s with EmptyString => false | String _ _ => true end.

(** [sep.join(l)] *)
Fixpoint join (sep : string) (l : list string) : string :=
  match l with
  | [] => ""
  | [x] => x
  | x :: rest => x +:+ sep +:+ join sep rest
  end.

(** [s.split(c)] for a one-character separator [c]: the pieces between
    the occurrences of [c]; never the empty list. *)
Fixpoint split (c : ascii) (s : string) : list string :=
  match s with
  | EmptyString => [""]
  | String a s' =>
      if Ascii.eqb a c then "" :: split c s'
      else match split c s' with
           | [] => [String a ""]
           | p :: ps => String a p :: ps
           end
  end.

(** The characters [str.strip()] removes, in UTF-8: U+0009..U+000D,
    U+001C..U+0020, U+0085, U+00A0, U+1680, U+2000..U+200A, U+2028,
    U+2029, U+202F, U+205F, U+3000. *)
Definition whitespace : list (list nat) :=
  [ [9]; [10]; [11]; [12]; [13]; [28]; [29]; [30]; [31]; [32];
    [194; 133]; [194; 160]; [225; 154; 128];
    [226; 128; 128]; [226; 128; 129]; [226; 128; 130]; [226; 128; 131];
    [226; 128; 132]; [226; 128; 133]; [226; 128; 134]; [226; 128; 135];
    [226; 128; 136]; [226; 128; 137]; [226; 128; 138];
    [226; 128; 168]; [226; 128; 169]; [226; 128; 175];
    [226; 129; 159]; [227; 128; 128] ].

(** [drop_prefix p s] is the rest of [s] after its prefix [p]. *)
Fixpoint drop_prefix (p : list ascii) (s : list ascii) : option (list ascii) :=
  match p, s with
  | [], _ => Some s
  | a :: p', b :: s' => if Ascii.eqb a b then drop_prefix p' s' else None
  | _ :: _, [] => None
  end.

Fixpoint drop_any (ws : list (list ascii)) (s : list ascii) : option (list ascii) :=
  match ws with
  | [] => None
  | w :: ws' =>
      match drop_prefix w s with
      | Some r => Some r
      | None => drop_any ws' s
      end
  end.

Fixpoint lstrip_with (ws : list (list ascii)) (n : nat) (s : list ascii) : list ascii :=
  match n with
  | 0 => s
  | S n' =>
      match drop_any ws s with
      | Some r => lstrip_with ws n' r
      | None => s
      end
  end.

Definition ws_front : list (list ascii) := map (map byte) whitespace.
Definition ws_back : list (list ascii) := map (fun w => rev (map byte w)) whitespace.

(** [s.strip()] *)
Definition strip (s : string) : string :=
  let l := list_ascii_of_string s in
  let l1 := lstrip_with ws_front (List.length l) l in
  let l2 := rev (lstrip_with ws_back (List.length l1) (rev l1)) in
  string_of_list_ascii l2.

(** [str(n)] for an [int]. *)
Definition of_int (n : Z) : string := pretty n.

(** [d.get(k, default)] for a dict literal. *)
Fixpoint dict_get (d : list (string * string)) (k : string) (default : string) : string :=
  match d with
  | [] => default
  | (k', v) :: rest => if String.eqb k' k then v else dict_get rest k default
  end.

End PyStr.

(** ** Results of a coroutine *)

Inductive exn := Exception (msg : string).

(** What an external collaborator answers. *)
Inductive reply (A : Type) :=
| Ok (a : A)
| Fail (e : exn).
Arguments Ok {A} a.
Arguments Fail {A} e.

Inductive res (A : Type) :=
| Ret (a : A)
| Raise (e : exn).
Arguments Ret {A} a.
Arguments Raise {A} e.

(** ** Data *)

(** The dict built by [process_article]. *)
Record Article := mkArticle {
  a_title : string;
  a_content : string;
  a_url : string;
  a_category : string;
  a_published_date : string }.

(** A row of the table [articles]; [url] is the primary key. *)
Record Row := mkRow {
  r_url : string;
  r_title : string;
  r_category : string;
  r_published_date : string;
  r_crawled_date : string;
  r_summary : string }.

(** What the program reads from a parsed page.
    [title_news]: for each element of class [title-news], the [href] of
    each of its [a] descendants, a [str] as the annotations of
    [get_urls_of_type_thread] and [is_article_crawled] have it;
    [title_detail]: the text of the first [h1.title-detail];
    [description]: the text of the first [p.description];
    [normal]: the texts of all [p.Normal]. *)
Record Soup := mkSoup {
  title_news : list (list string);
  title_detail : option string;
  description : option string;
  normal : list string }.

Inductive event :=
| EGet (url : string)
| EGenerate (prompt : string)
| EPost (a : Article) (summary : string) (text : string) (delivered : bool)
| ECreate (ok : bool)
| ESelect (url : string) (ok : bool)
| EInsert (r : Row) (ok : bool).

(** The collaborators.  The first argument is the number of interactions
    made so far. *)
Record World := mkWorld {
  http_get : nat -> string -> reply Soup;
  chat_completions_create : nat -> string -> reply string;
  send_message : nat -> string -> reply unit;
  sqlite : nat -> reply unit;
  now : nat -> string }.

Record State := mkState {
  table : gmap string Row;
  cache : gmap string string;
  session : bool;
  trace : list event }.

Definition tick (st : State) : nat := List.length (trace st).

Definition log (e : event) (st : State) : State :=
  mkState (table st) (cache st) (session st) (e :: trace st).
Definition set_table (t : gmap string Row) (st : State) : State :=
  mkState t (cache st) (session st) (trace st).
Definition set_cache (c : gmap string string) (st : State) : State :=
  mkState (table st) c (session st) (trace st).
Definition set_session (b : bool) (st : State) : State :=
  mkState (table st) (cache st) b (trace st).

(** A fresh database file, no summarizer cache, no session. *)
Definition initial_state : State := mkState ∅ ∅ false [].

(** ** The monad of coroutines *)

Definition M (A : Type) : Type := State -> State * res A.

Definition ret {A} (a : A) : M A := fun st => (st, Ret a).
Definition raise {A} (e : exn) : M A := fun st => (st, Raise e).

Definition bind {A B} (m : M A) (f : A -> M B) : M B :=
  fun st =>
    match m st with
    | (st', Ret a) => f a st'
    | (st', Raise e) => (st', Raise e)
    end.

(** [try: body except Exception as e: handler] *)
Definition try_except {A} (body : M A) (handler : exn -> M A) : M A :=
  fun st =>
    match body st with
    | (st', Raise e) => handler e st'
    | r => r
    end.

(** [try: body finally: fin]: [fin] runs whatever [body] did, and an
    exception of [fin] replaces the result of [body]. *)
Definition try_finally {A} (body : M A) (fin : M unit) : M A :=
  fun st =>
    match body st with
    | (st', r) =>
        match fin st' with
        | (st'', Ret _) => (st'', r)
        | (st'', Raise e) => (st'', Raise e)
        end
    end.

Declare Scope py_scope.
Delimit Scope py_scope with py.
Notation "x <- m ;; k" := (bind m (fun x => k))
  (at level 100, m at next level, right associativity) : py_scope.
Notation "m ;;; k" := (bind m (fun _ => k))
  (at level 100, right associativity) : py_scope.
Open Scope py_scope.

(** [for x in l: body x] *)
Fixpoint for_each {A} (l : list A) (body : A -> M unit) : M unit :=
  match l with
  | [] => ret tt
  | x :: rest => body x ;;; for_each rest body
  end.

(** [[f(x) for x in l]], evaluated left to right. *)
Fixpoint map_m {A B} (f : A -> M B) (l : list A) : M (list B) :=
  match l with
  | [] => ret []
  | x :: rest => y <- f x ;; ys <- map_m f rest ;; ret (y :: ys)
  end.

Definition final {A} (r : State * res A) : State := fst r.
Definition result {A} (r : State * res A) : res A := snd r.

Import PyStr.

(** ** class DatabaseManager *)

(** [create_table]: [CREATE TABLE IF NOT EXISTS] keeps the rows. *)
Definition create_table (w : World) : M unit :=
  fun st =>
    match sqlite w (tick st) with
    | Ok _ => (log (ECreate true) st, Ret tt)
    | Fail e => (log (ECreate false) st, Raise e)
    end.

(** [insert_article]: [INSERT OR REPLACE] of the row keyed by the url,
    with the time of the call as [crawled_date]. *)
Definition insert_article (w : World) (article : Article) (summary : string) : M unit :=
  fun st =>
    let r := mkRow (a_url article) (a_title article) (a_category article)
                   (a_published_date article) (now w (tick st)) summary in
    match sqlite w (tick st) with
    | Ok _ => (log (EInsert r true) (set_table (<[a_url article := r]> (table st)) st), Ret tt)
    | Fail e => (log (EInsert r false) st, Raise e)
    end.

(** [is_article_crawled]: is there a row whose key is [url]? *)
Definition is_article_crawled (w : World) (url : string) : M bool :=
  fun st =>
    match sqlite w (tick st) with
    | Ok _ => (log (ESelect url true) st, Ret (bool_decide (is_Some (table st !! url))))
    | Fail e => (log (ESelect url false) st, Raise e)
    end.

(** ** class VNExpressCrawler *)

Definition article_type_dict : list (Z * string) :=
  [ (0%Z, "tin-xem-nhieu"); (1%Z, "tin-nong"); (2%Z, "tin-tuc-24h") ].

(** [dict.values()] *)
Definition values (d : list (Z * string)) : list string := map snd d.

Definition create_session : M unit := fun st => (set_session true st, Ret tt).

(** [close_session]: the session, when there is one, is closed and no
    longer usable. *)
Definition close_session : M unit :=
  fun st => if session st then (set_session false st, Ret tt) else (st, Ret tt).

(** [self.session.get(url, timeout=10)], [response.text()] and the
    parser, as one interaction.  Without a usable session the attribute
    access raises before anything is sent. *)
Definition session_get (w : World) (url : string) : M Soup :=
  fun st =>
    if session st then
      match http_get w (tick st) url with
      | Ok soup => (log (EGet url) st, Ret soup)
      | Fail e => (log (EGet url) st, Raise e)
      end
    else (st, Raise (Exception "'NoneType' object has no attribute 'get'")).

Definition extract_content (w : World) (url : string)
  : M (option string * option string * option string) :=
  try_except
    (soup <- session_get w url ;;
     match title_detail soup with
     | None => ret (None, None, None)
     | Some t =>
         let title := strip t in
         let description :=
           match description soup with Some d => strip d | None => "" end in
         let paragraphs := join " " (map strip (normal soup)) in
         ret (Some title, Some description, Some paragraphs)
     end)
    (fun e => ret (None, None, None)).

(** The loop [for title in titles] of [get_urls_of_type_thread];
    [title.find_all("a")[0]] raises when the element has no link. *)
Fixpoint collect_urls (w : World) (titles : list (list string))
    (articles_urls : list string) : M (list string) :=
  match titles with
  | [] => ret articles_urls
  | title :: rest =>
      match title with
      | [] => raise (Exception "list index out of range")
      | url :: _ =>
          crawled <- is_article_crawled w url ;;
          collect_urls w rest
            (if negb crawled then articles_urls ++ [url] else articles_urls)
      end
  end.

Definition page_url_of (article_type : string) (page_number : Z) : string :=
  "https://vnexpress.net/" +:+ article_type +:+ "-p" +:+ of_int page_number.

Definition get_urls_of_type_thread (w : World) (article_type : string)
    (page_number : Z) : M (list string) :=
  try_except
    (let page_url := page_url_of article_type page_number in
     soup <- session_get w page_url ;;
     let titles := title_news soup in
     match titles with
     | [] => ret []
     | _ :: _ => collect_urls w titles []
     end)
    (fun e => ret []).

(** Truth value and f-string rendering of an [Optional[str]]. *)
Definition truthy (o : option string) : bool :=
  match o with Some s => nonempty s | None => false end.
Definition fmt (o : option string) : string :=
  match o with Some s => s | None => "None" end.

Definition process_article (w : World) (url : string) (article_type : string)
  : M (option Article) :=
  tdp <- extract_content w url ;;
  let '(title, description, paragraphs) := tdp in
  if truthy title && (truthy description || truthy paragraphs) then
    let content := fmt description +:+ nl +:+ fmt paragraphs in
    fun st =>
      (st, Ret (Some (mkArticle (fmt title) content url article_type (now w (tick st)))))
  else ret None.

(** [range(lo, hi)] *)
Definition range (lo hi : Z) : list Z :=
  map (fun i => (lo + Z.of_nat i)%Z) (seq 0 (Z.to_nat (hi - lo))).

(** The loop [for page in range(1, pages + 1)] of [get_latest_articles]. *)
Fixpoint pages_loop (w : World) (article_type : string) (pages : list Z)
    (articles : list (option Article)) : M (list (option Article)) :=
  match pages with
  | [] => ret articles
  | page :: rest =>
      urls <- get_urls_of_type_thread w article_type page ;;
      gathered <- map_m (fun url => process_article w url article_type) urls ;;
      pages_loop w article_type rest (articles ++ gathered)
  end.

Definition get_latest_articles (w : World) (article_type : string) (pages : Z)
  : M (list Article) :=
  articles <- pages_loop w article_type (range 1 (pages + 1)) [] ;;
  ret (omap id articles).

(** ** class GroqSummarizer *)

Definition prompt_of (text : string) : string :=
  "Hãy tóm tắt bài báo tiếng Việt sau đây, giữ nguyên các thông tin và ý chính quan trọng:" +:+ nl +:+
  nl +:+
  "            " +:+ text +:+ nl +:+
  nl +:+
  "            Yêu cầu khi tóm tắt:" +:+ nl +:+
  "            - Độ dài: 4-10 câu" +:+ nl +:+
  "            - Giữ nguyên các thông tin quan trọng như: thời gian, địa điểm, nhân vật chính" +:+ nl +:+
  "            - Sắp xếp các sự kiện theo trình tự thời gian" +:+ nl +:+
  "            - Sử dụng ngôn ngữ tự nhiên, dễ hiểu" +:+ nl +:+
  "            - Không thêm thông tin không có trong bài gốc" +:+ nl +:+
  "            - Chỉ trả lời bằng tiếng Việt" +:+ nl +:+
  "            ".

(** The request to the generation service and
    [completion.choices[0].message.content]. *)
Definition completions_create (w : World) (prompt : string) : M string :=
  fun st =>
    match chat_completions_create w (tick st) prompt with
    | Ok content => (log (EGenerate prompt) st, Ret content)
    | Fail e => (log (EGenerate prompt) st, Raise e)
    end.

(** [len(summary.split(".")) < 4] *)
Definition too_short (summary : string) : bool :=
  Nat.ltb (List.length (split "." summary)) 4.

Definition cache_store (text summary : string) : M unit :=
  fun st => (set_cache (<[text := summary]> (cache st)) st, Ret tt).

(** [RecursionError], raised at the interpreter's frame limit. *)
Definition recursion_error : exn :=
  Exception "maximum recursion depth exceeded".

(** [summarize]; [fuel] is the number of requests that the frame limit
    still admits: each retry [return await self.summarize(text)] is one
    call deeper, and at the limit the body of the [try] raises
    [RecursionError] before it reaches the service. *)
Fixpoint summarize (fuel : nat) (w : World) (text : string) : M string :=
  fun st =>
    match cache st !! text with
    | Some cached => (st, Ret cached)
    | None =>
        try_except
          (match fuel with
           | 0 => raise recursion_error
           | S fuel' =>
               content <- completions_create w (prompt_of text) ;;
               let summary := strip content in
               if too_short summary then summarize fuel' w text
               else (cache_store text summary ;;; ret summary)
           end)
          (fun e => ret "") st
    end.

(** ** class TelegramPoster *)

Definition category_emojis : list (string * string) :=
  [ ("thoi-su", "📰"); ("du-lich", "✈️"); ("the-gioi", "🌍");
    ("kinh-doanh", "💼"); ("khoa-hoc", "🔬"); ("giai-tri", "🎭");
    ("the-thao", "⚽"); ("phap-luat", "⚖️"); ("giao-duc", "📚");
    ("suc-khoe", "🏥"); ("doi-song", "🌟"); ("tin-xem-nhieu", "🏆");
    ("tin-tuc-24h", "🕒"); ("tin-nong", "🔥") ].

Definition message_of (article : Article) (summary : string) : string :=
  let category_emoji := dict_get category_emojis (a_category article) "📄" in
  category_emoji +:+ " *" +:+ a_title article +:+ "*" +:+ nl +:+ nl +:+
  "📝 *Tóm tắt:*" +:+ nl +:+ summary +:+ nl +:+ nl +:+
  "🔗 [Đọc thêm](" +:+ a_url article +:+ ")" +:+ nl +:+
  "📂 Chuyên mục: " +:+ a_category article +:+ nl +:+
  "🕒 " +:+ a_published_date article.

(** [self.bot.send_message(...)] *)
Definition bot_send_message (w : World) (article : Article) (summary text : string) : M unit :=
  fun st =>
    match send_message w (tick st) text with
    | Ok _ => (log (EPost article summary text true) st, Ret tt)
    | Fail e => (log (EPost article summary text false) st, Raise e)
    end.

Definition post_update (w : World) (article : Article) (summary : string) : M unit :=
  try_except
    (let message := message_of article summary in
     bot_send_message w article summary message)
    (fun e => ret tt).

(** ** The orchestrator *)

(** The body of [for article in articles]. *)
Definition handle_article (fuel : nat) (w : World) (article : Article) : M unit :=
  if nonempty (a_content article) then
    summary <- summarize fuel w (a_content article) ;;
    if nonempty summary then
      post_update w article summary ;;;
      insert_article w article summary
    else ret tt
  else ret tt.

(** The body of [for category in crawler.article_type_dict.values()];
    [get_latest_articles] is called with its default [pages=2]. *)
Definition handle_category (fuel : nat) (w : World) (category : string) : M unit :=
  articles <- get_latest_articles w category 2 ;;
  for_each articles (handle_article fuel w).

(** [process_articles]: a new crawler (no session yet) and a new
    summarizer (empty cache), then the cycle. *)
Definition process_articles (fuel : nat) (w : World) : M unit :=
  fun st =>
    let st := set_session false (set_cache ∅ st) in
    (create_table w ;;;
     create_session ;;;
     try_finally
       (try_except
          (for_each (values article_type_dict) (handle_category fuel w))
          (fun e => ret tt))
       close_session) st.

(** [n] iterations of the loop of [main], each with its own world and
    frame budget; the loop stops when a cycle raises. *)
Fixpoint main (cycles : list (nat * World)) : M unit :=
  match cycles with
  | [] => ret tt
  | (fuel, w) :: rest => process_articles fuel w ;;; main rest
  end.

(** * Specification vocabulary *)

(** [m] relates every state to the state it leaves, whatever its result. *)
Definition respects (R : State -> State -> Prop) {A} (m : M A) : Prop :=
  forall st, R st (final (m st)).

(** The number of requests to the generation service in a trace. *)
Fixpoint generations (t : list event) : nat :=
  match t with
  | [] => 0
  | EGenerate _ :: rest => S (generations rest)
  | _ :: rest => generations rest
  end.


(** Every cached summary passed the gate. *)
Definition cache_valid (st : State) : Prop :=
  forall text summary,
    cache st !! text = Some summary -> too_short summary = false.

(** *** Stubbed collaborators *)

Definition unreachable : exn := Exception "unreachable".

(** A world where only the generation service answers, with [replies]. *)
Definition service_stub (replies : nat -> reply string) : World :=
  mkWorld (fun _ _ => Fail unreachable) (fun n _ => replies n)
          (fun _ _ => Fail unreachable) (fun _ => Fail unreachable)
          (fun _ => "2024-01-01 00:00:00").

Definition two_sentences : string := "Mot. Hai.".
Definition five_sentences : string := "Mot. Hai. Ba. Bon. Nam.".

(** A 2-sentence string at the first call, a 5-sentence one afterwards. *)
Definition two_then_five : World :=
  service_stub (fun n => match n with 0 => Ok two_sentences | _ => Ok five_sentences end).

Definition always_short : World := service_stub (fun _ => Ok two_sentences).

Definition service_down : World := service_stub (fun _ => Fail (Exception "503")).

(** *** Frames *)

(** [st'] extends the trace of [st] by events that satisfy [P]. *)
Definition adds (P : event -> Prop) (st st' : State) : Prop :=
  exists new, trace st' = new ++ trace st /\ Forall P new.

Definition is_crawl (e : event) : Prop :=
  match e with EGet _ | ESelect _ _ => True | _ => False end.

(** What discovery and extraction may do: requests and look-ups. *)
Definition crawl_step (st st' : State) : Prop :=
  table st' = table st /\ cache st' = cache st /\ session st' = session st /\
  adds is_crawl st st'.

(** [m] returns a value from every state. *)
Definition returns {A} (m : M A) : Prop :=
  forall st, exists a, result (m st) = Ret a.

(** The test of [process_article] fails on an extraction. *)
Definition skip (tdp : option string * option string * option string) : Prop :=
  let '(title, description, paragraphs) := tdp in
  truthy title = false \/ (truthy description = false /\ truthy paragraphs = false).

(** Whenever [url] is extracted in [w], there is no title, or neither
    excerpt nor body. *)
Definition always_skipped (w : World) (url : string) : Prop :=
  forall st tdp, result (extract_content w url st) = Ret tdp -> skip tdp.

(** The event publishes or persists [url]. *)
Definition about (url : string) (e : event) : Prop :=
  match e with
  | EPost a _ _ _ => a_url a = url
  | EInsert r _ => r_url r = url
  | _ => False
  end.

(** [a] is an article some call of [process_article] returned for the
    category. *)
Definition processed (w : World) (article_type : string) (a : Article) : Prop :=
  exists url st, result (process_article w url article_type st) = Ret (Some a).

(** *** Invariants of the orchestrator *)

(** [st] is reached from [t0] by events that satisfy [P]. *)
Definition since (t0 : list event) (P : event -> Prop) (st : State) : Prop :=
  exists new, trace st = new ++ t0 /\ Forall P new.

(** [st'] is at least as good as [st] for the invariant [I]. *)
Definition keeps (I : State -> Prop) : relation State :=
  fun st st' => I st -> I st'.

Definition not_insert (e : event) : Prop :=
  match e with EInsert _ _ => False | _ => True end.

(** No request to the service, no message, no write. *)
Definition quiet (e : event) : Prop :=
  match e with
  | EGenerate _ | EPost _ _ _ _ | EInsert _ _ => False
  | _ => True
  end.

(** No persisted row has an empty summary. *)
Definition summaries_nonempty (st : State) : Prop :=
  forall url r, table st !! url = Some r -> r_summary r <> "".

(** No call of [insert_article] was given an empty summary. *)
Definition inserts_nonempty (t : list event) : Prop :=
  forall r ok, In (EInsert r ok) t -> r_summary r <> "".

(** Each call of [insert_article] directly follows a call of
    [send_message] for the same article and summary, delivered or not
    (the trace is newest first). *)
Definition attempt_precedes (t : list event) : Prop :=
  forall newer r ok older,
    t = newer ++ EInsert r ok :: older ->
    exists a text delivered rest,
      older = EPost a (r_summary r) text delivered :: rest /\ a_url a = r_url r.

(** Each row of the table was written by a logged [insert_article]. *)
Definition rows_logged (st : State) : Prop :=
  forall url r, table st !! url = Some r ->
    r_url r = url /\ In (EInsert r true) (trace st).

(** Each row of the table has a delivered message for its URL. *)
Definition delivered_before_persisted (st : State) : Prop :=
  forall url r, table st !! url = Some r ->
    exists a summary text, In (EPost a summary text true) (trace st) /\ a_url a = url.

(** The headlines shown by the listing pages of a cycle all link to
    URLs that have a row in [tbl]. *)
Definition listing_persisted (w : World) (tbl : gmap string Row) : Prop :=
  forall n category page soup title url rest,
    In category (values article_type_dict) ->
    In page (range 1 3) ->
    http_get w n (page_url_of category page) = Ok soup ->
    In title (title_news soup) ->
    title = url :: rest ->
    is_Some (tbl !! url).

(** Whether the chat API takes the message for [article] at [st]. *)
Definition delivered (w : World) (article : Article) (summary : string) (st : State) : bool :=
  match send_message w (tick st) (message_of article summary) with
  | Ok _ => true
  | Fail _ => false
  end.

(** The row [insert_article] writes at [st]. *)
Definition row_of (w : World) (article : Article) (summary : string) (st : State) : Row :=
  mkRow (a_url article) (a_title article) (a_category article)
        (a_published_date article) (now w (tick st)) summary.

(** The invariant behind C4. *)
Definition store_ok (st : State) : Prop :=
  summaries_nonempty st /\ inserts_nonempty (trace st).

(** The invariant behind C1 as the code has it. *)
Definition audit_ok (st : State) : Prop :=
  attempt_precedes (trace st) /\ rows_logged st.

(** *** A small site *)

Definition listing_url : string := "https://vnexpress.net/tin-xem-nhieu-p1".
Definition article_url : string := "https://vnexpress.net/bai-viet-1.html".

(** The first page of the first category shows one headline. *)
Definition listing_soup : Soup := mkSoup [[article_url]] None None [].

Definition article_soup : Soup :=
  mkSoup [] (Some " Tieu de ") (Some "Mo ta.") ["Doan mot."; "Doan hai."].

(** A page with a title and neither excerpt nor body. *)
Definition blank_soup : Soup := mkSoup [] (Some "Tieu de") None [].

Definition site (article : Soup) : nat -> string -> reply Soup :=
  fun _ url =>
    if String.eqb url listing_url then Ok listing_soup
    else if String.eqb url article_url then Ok article
    else Fail (Exception "404").

Definition newsroom (chat_up : bool) (article : Soup) : World :=
  mkWorld (site article)
          (fun _ _ => Ok five_sentences)
          (fun _ _ => if chat_up then Ok tt else Fail (Exception "chat not found"))
          (fun _ => Ok tt)
          (fun _ => "2024-01-01 00:00:00").

Definition all_up : World := newsroom true article_soup.
Definition telegram_down : World := newsroom false article_soup.
Definition blank_site : World := newsroom true blank_soup.

(** A site whose listing pages have no headline. *)
Definition empty_site : World :=
  mkWorld (fun _ _ => Ok (mkSoup [] None None []))
          (fun _ _ => Ok five_sentences) (fun _ _ => Ok tt) (fun _ => Ok tt)
          (fun _ => "2024-01-01 00:00:00").

(** A crawler with its session created, on a fresh database. *)
Definition online : State := set_session true initial_state.

(** The row the cycle writes for the article of the small site. *)
Definition article_row : Row :=
  mkRow article_url "Tieu de" "tin-xem-nhieu" "2024-01-01 00:00:00"
        "2024-01-01 00:00:00" five_sentences.

(** *** Further vocabulary *)

(** The number of occurrences of a character in a string. *)
Fixpoint occurrences (c : ascii) (s : string) : nat :=
  match s with
  | EmptyString => 0
  | String a s' => (if Ascii.eqb a c then 1 else 0) + occurrences c s'
  end.

(** The link [title.find_all("a")[0]] of each headline, when all have one. *)
Fixpoint first_links (titles : list (list string)) : option (list string) :=
  match titles with
  | [] => Some []
  | [] :: _ => None
  | (url :: _) :: rest =>
      match first_links rest with
      | Some links => Some (url :: links)
      | None => None
      end
  end.

(** [url] has no row in [tbl]. *)
Definition unseen (tbl : gmap string Row) (url : string) : bool :=
  negb (bool_decide (is_Some (tbl !! url))).

(** A write that the database refused. *)
Definition failed_write (e : event) : Prop :=
  match e with EInsert _ false => True | _ => False end.

(** Every persisted summary passed the gate. *)
Definition rows_accepted (st : State) : Prop :=
  forall url r, table st !! url = Some r -> too_short (r_summary r) = false.

(** ** The first version of the summarizer ([test_mvp.py]) *)

Module Mvp.

(** [GroqSummarizer.summarize] without a cache: the same prompt, the same
    gate, the same recursion inside the same [try]. *)
Fixpoint summarize (fuel : nat) (w : World) (text : string) : M string :=
  fun st =>
    try_except
      (match fuel with
       | 0 => raise recursion_error
       | S fuel' =>
           content <- completions_create w (prompt_of text) ;;
           let summary := strip content in
           if too_short summary then summarize fuel' w text
           else ret summary
       end)
      (fun e => ret "") st.

End Mvp.

(** ** Start-up ([if __name__ == "__main__"]) *)

Definition required_env : list string :=
  [ "GROQ_API_KEY"; "TELEGRAM_BOT_TOKEN"; "TELEGRAM_CHAT_ID" ].

(** [os.getenv(name)] in the environment [environ]. *)
Definition getenv (environ : gmap string string) (name : string) : option string :=
  environ !! name.

(** [[env for env in required_env if not os.getenv(env)]] *)
Definition missing_env (environ : gmap string string) : list string :=
  List.filter (fun env => negb (truthy (getenv environ env))) required_env.

(** What the script does before the loop: it prints two lines and exits
    with status 1, or it runs [main]. *)
Inductive startup_outcome :=
| Exit (status : Z) (printed : list string)
| RunMain.

Definition startup (environ : gmap string string) : startup_outcome :=
  match missing_env environ with
  | [] => RunMain
  | _ :: _ =>
      Exit 1 [ "Missing required environment variables: "
                 +:+ join ", " (missing_env environ);
               "Please add them to your .env file" ]
  end.

(** *** A refused write ends the cycle *)

Definition clean (new : list event) : Prop :=
  Forall (fun e => ~ failed_write e) new.

(** The computation added [new] to the trace; a refused write, if any, is
    the newest event and the computation raised there. *)
Definition stops_at_failed_write {A} (st : State) (out : State * res A) : Prop :=
  exists new,
    trace (final out) = new ++ trace st /\
    (clean new \/
     exists r older e,
       new = EInsert r false :: older /\ clean older /\ result out = Raise e).

(** An article of a page: it carries the category, a title, a content,
    and a URL without a row in [tbl]. *)
Definition fresh_article (article_type : string) (tbl : gmap string Row)
    (o : option Article) : Prop :=
  forall a, o = Some a ->
    a_category a = article_type /\ a_title a <> "" /\
    nonempty (a_content a) = true /\ tbl !! a_url a = None.

(** No white-space character at either end. *)
Definition trimmed (s : string) : Prop :=
  drop_any ws_front (list_ascii_of_string s) = None /\
  drop_any ws_back (rev (list_ascii_of_string s)) = None.

(** * Verification *)

(** ** State transformers: relations between the state before and after *)

Section Respects.
Context (R : relation State) `{!PreOrder R}.

Lemma respects_ret {A} (a : A) : respects R (ret a).
Proof. intros st. reflexivity. Qed.

Lemma respects_raise {A} (e : exn) : respects R (@raise A e).
Proof. intros st. reflexivity. Qed.

Lemma respects_bind {A B} (m : M A) (f : A -> M B) :
  respects R m -> (forall a, respects R (f a)) -> respects R (bind m f).
Proof.
  intros Hm Hf st. unfold bind. specialize (Hm st).
  destruct (m st) as [st1 [a|e]]; simpl in *; auto.
  etrans; [exact Hm | apply Hf].
Qed.

Lemma respects_try_except {A} (body : M A) (handler : exn -> M A) :
  respects R body -> (forall e, respects R (handler e)) ->
  respects R (try_except body handler).
Proof.
  intros Hb Hh st. unfold try_except. specialize (Hb st).
  destruct (body st) as [st1 [a|e]]; simpl in *; auto.
  etrans; [exact Hb | apply Hh].
Qed.

Lemma respects_try_finally {A} (body : M A) (fin : M unit) :
  respects R body -> respects R fin -> respects R (try_finally body fin).
Proof.
  intros Hb Hf st. unfold try_finally. specialize (Hb st).
  destruct (body st) as [st1 [a|e]]; simpl in *; auto;
    specialize (Hf st1); destruct (fin st1) as [st2 [[]|e']];
    simpl in *; etrans; eauto.
Qed.

Lemma respects_for_each {A} (l : list A) (body : A -> M unit) :
  (forall x, respects R (body x)) -> respects R (for_each l body).
Proof.
  intros Hb. induction l as [|x l IH]; simpl.
  - apply respects_ret.
  - apply respects_bind; auto.
Qed.

Lemma respects_map_m {A B} (f : A -> M B) (l : list A) :
  (forall x, respects R (f x)) -> respects R (map_m f l).
Proof.
  intros Hf. induction l as [|x l IH]; simpl.
  - apply respects_ret.
  - apply respects_bind; [apply Hf | intros y].
    apply respects_bind; [exact IH | intros ys; apply respects_ret].
Qed.
End Respects.

(** ** The summarizer *)

Section Summarizer.
Variable w : World.
Variable text : string.

Lemma summarize_hit fuel st cached :
  cache st !! text = Some cached ->
  summarize fuel w text st = (st, Ret cached).
Proof. intros H. destruct fuel; simpl; rewrite H; reflexivity. Qed.

(** At the frame limit the [RecursionError] is caught: the empty string
    is returned and no request is made. *)
Lemma summarize_at_limit st :
  cache st !! text = None -> summarize 0 w text st = (st, Ret "").
Proof. intros H. simpl. rewrite H. reflexivity. Qed.

(** The generation service raised: the handler returns the empty string
    and nothing is cached. *)
Lemma summarize_miss_fail fuel st e :
  cache st !! text = None ->
  chat_completions_create w (tick st) (prompt_of text) = Fail e ->
  summarize (S fuel) w text st = (log (EGenerate (prompt_of text)) st, Ret "").
Proof.
  intros Hc Hr. simpl. rewrite Hc.
  unfold try_except, bind, completions_create. rewrite Hr. reflexivity.
Qed.

Lemma summarize_never_raises fuel st e :
  result (summarize fuel w text st) <> Raise e.
Proof.
  revert st. induction fuel as [|fuel IH]; intros st; simpl.
  - destruct (cache st !! text); simpl; discriminate.
  - destruct (cache st !! text); simpl; [discriminate|].
    unfold try_except, bind, completions_create.
    destruct (chat_completions_create w (tick st) (prompt_of text)) as [content|e'];
      simpl; [|discriminate].
    destruct (too_short (strip content)).
    + specialize (IH (log (EGenerate (prompt_of text)) st)).
      destruct (summarize fuel w text (log (EGenerate (prompt_of text)) st))
        as [st1 [a|e1]]; simpl in *; congruence.
    + simpl. discriminate.
Qed.

(** Rejected by the gate: the call is made again. *)
Lemma summarize_miss_short fuel st content :
  cache st !! text = None ->
  chat_completions_create w (tick st) (prompt_of text) = Ok content ->
  too_short (strip content) = true ->
  summarize (S fuel) w text st
  = summarize fuel w text (log (EGenerate (prompt_of text)) st).
Proof.
  intros Hc Hr Hs. simpl. rewrite Hc.
  unfold try_except, bind, completions_create. rewrite Hr, Hs.
  pose proof (summarize_never_raises fuel (log (EGenerate (prompt_of text)) st)) as Hn.
  destruct (summarize fuel w text (log (EGenerate (prompt_of text)) st))
    as [st1 [a|e1]]; simpl in *; try reflexivity.
  exfalso. apply (Hn e1). reflexivity.
Qed.

(** Accepted by the gate: cached under the content and returned. *)
Lemma summarize_miss_accept fuel st content :
  cache st !! text = None ->
  chat_completions_create w (tick st) (prompt_of text) = Ok content ->
  too_short (strip content) = false ->
  summarize (S fuel) w text st
  = (set_cache (<[text := strip content]> (cache st))
       (log (EGenerate (prompt_of text)) st), Ret (strip content)).
Proof.
  intros Hc Hr Hs. simpl. rewrite Hc.
  unfold try_except, bind, completions_create, cache_store, ret.
  rewrite Hr, Hs. reflexivity.
Qed.
End Summarizer.

Section SummarizerFacts.
Variable w : World.
Variable text : string.


Lemma repeat_shift (e : event) n t : repeat e n ++ e :: t = repeat e (S n) ++ t.
Proof. induction n as [|n IH]; simpl; [reflexivity|]. by rewrite IH. Qed.

Lemma too_short_empty : too_short "" = true.
Proof. reflexivity. Qed.

(** [summarize] only adds requests for [text] to the trace, and leaves
    the table and the session alone. *)
Lemma summarize_frame fuel st :
  let st' := final (summarize fuel w text st) in
  table st' = table st /\ session st' = session st /\
  exists n, trace st' = repeat (EGenerate (prompt_of text)) n ++ trace st.
Proof.
  revert st. induction fuel as [|fuel IH]; intros st.
  - simpl. destruct (cache st !! text); simpl; repeat split; by exists 0.
  - destruct (cache st !! text) as [c|] eqn:Hc.
    { rewrite (summarize_hit _ _ _ _ _ Hc). simpl. repeat split; by exists 0. }
    destruct (chat_completions_create w (tick st) (prompt_of text)) as [content|e] eqn:Hr.
    + destruct (too_short (strip content)) eqn:Hs.
      * rewrite (summarize_miss_short _ _ _ _ _ Hc Hr Hs).
        destruct (IH (log (EGenerate (prompt_of text)) st)) as (Ht & Hse & n & Hn).
        cbv zeta. rewrite Ht, Hse, Hn. repeat split.
        exists (S n). simpl. apply repeat_shift.
      * rewrite (summarize_miss_accept _ _ _ _ _ Hc Hr Hs). simpl.
        repeat split. by exists 1.
    + rewrite (summarize_miss_fail _ _ _ _ _ Hc Hr). simpl.
      repeat split. by exists 1.
Qed.




(** A summary that is returned and not empty is in the cache. *)
Lemma summarize_returned_cached fuel st summary :
  result (summarize fuel w text st) = Ret summary -> summary <> "" ->
  cache (final (summarize fuel w text st)) !! text = Some summary.
Proof.
  revert st. induction fuel as [|fuel IH]; intros st Hres Hne.
  - destruct (cache st !! text) as [c|] eqn:Hc.
    + rewrite (summarize_hit _ _ _ _ _ Hc) in *. simpl in *. congruence.
    + rewrite (summarize_at_limit _ _ _ Hc) in Hres. simpl in Hres. congruence.
  - destruct (cache st !! text) as [c|] eqn:Hc.
    { rewrite (summarize_hit _ _ _ _ _ Hc) in *. simpl in *. congruence. }
    destruct (chat_completions_create w (tick st) (prompt_of text)) as [content|e] eqn:Hr.
    + destruct (too_short (strip content)) eqn:Hs.
      * rewrite (summarize_miss_short _ _ _ _ _ Hc Hr Hs) in *. by apply IH.
      * rewrite (summarize_miss_accept _ _ _ _ _ Hc Hr Hs) in *. simpl in *.
        inversion Hres; subst. apply lookup_insert_eq.
    + rewrite (summarize_miss_fail _ _ _ _ _ Hc Hr) in Hres. simpl in Hres.
      congruence.
Qed.

Lemma summarize_keeps_cache_valid fuel st :
  cache_valid st -> cache_valid (final (summarize fuel w text st)).
Proof.
  revert st. induction fuel as [|fuel IH]; intros st Hv.
  - simpl. by destruct (cache st !! text).
  - destruct (cache st !! text) as [c|] eqn:Hc.
    { by rewrite (summarize_hit _ _ _ _ _ Hc). }
    destruct (chat_completions_create w (tick st) (prompt_of text)) as [content|e] eqn:Hr.
    + destruct (too_short (strip content)) eqn:Hs.
      * rewrite (summarize_miss_short _ _ _ _ _ Hc Hr Hs). by apply IH.
      * rewrite (summarize_miss_accept _ _ _ _ _ Hc Hr Hs). simpl.
        intros k v. simpl. rewrite lookup_insert.
        case_decide; [intros [= <-]; exact Hs | apply Hv].
    + by rewrite (summarize_miss_fail _ _ _ _ _ Hc Hr).
Qed.

(** From a valid cache, the empty string is returned only when nothing
    is cached for [text]. *)
Lemma summarize_empty_uncached fuel st :
  cache_valid st ->
  result (summarize fuel w text st) = Ret "" ->
  cache (final (summarize fuel w text st)) !! text = None.
Proof.
  revert st. induction fuel as [|fuel IH]; intros st Hv Hres.
  - destruct (cache st !! text) as [c|] eqn:Hc.
    + rewrite (summarize_hit _ _ _ _ _ Hc) in *. simpl in *.
      inversion Hres; subst. pose proof too_short_empty as E.
      by rewrite (Hv _ _ Hc) in E.
    + by rewrite (summarize_at_limit _ _ _ Hc).
  - destruct (cache st !! text) as [c|] eqn:Hc.
    { rewrite (summarize_hit _ _ _ _ _ Hc) in *. simpl in *.
      inversion Hres; subst. pose proof too_short_empty as E.
      by rewrite (Hv _ _ Hc) in E. }
    destruct (chat_completions_create w (tick st) (prompt_of text)) as [content|e] eqn:Hr.
    + destruct (too_short (strip content)) eqn:Hs.
      * rewrite (summarize_miss_short _ _ _ _ _ Hc Hr Hs) in *. by apply IH.
      * rewrite (summarize_miss_accept _ _ _ _ _ Hc Hr Hs) in Hres. simpl in Hres.
        inversion Hres as [He]. rewrite He in Hs. pose proof too_short_empty as E.
        by rewrite Hs in E.
    + by rewrite (summarize_miss_fail _ _ _ _ _ Hc Hr).
Qed.
End SummarizerFacts.

(** On a miss below the frame limit, the first thing [summarize] does is
    a request. *)
Lemma summarize_miss_requests w text fuel st :
  cache st !! text = None ->
  exists newer,
    trace (final (summarize (S fuel) w text st))
    = newer ++ EGenerate (prompt_of text) :: trace st.
Proof.
  intros Hc.
  destruct (chat_completions_create w (tick st) (prompt_of text)) as [content|e] eqn:Hr.
  - destruct (too_short (strip content)) eqn:Hs.
    + rewrite (summarize_miss_short _ _ _ _ _ Hc Hr Hs).
      destruct (summarize_frame w text fuel (log (EGenerate (prompt_of text)) st))
        as (_ & _ & n & Hn).
      cbv zeta in Hn. rewrite Hn. by eexists.
    + rewrite (summarize_miss_accept _ _ _ _ _ Hc Hr Hs). by exists [].
  - rewrite (summarize_miss_fail _ _ _ _ _ Hc Hr). by exists [].
Qed.

(** ** Claims about the summarizer *)

Lemma too_short_lt summary :
  too_short summary = true <-> List.length (split "." summary) < 4.
Proof. unfold too_short. apply Nat.ltb_lt. Qed.

Lemma too_short_ge summary :
  too_short summary = false <-> 4 <= List.length (split "." summary).
Proof. unfold too_short. rewrite Nat.ltb_ge. reflexivity. Qed.

(** C2.  The validation gate: the pieces of the stripped result are
    counted after splitting on the full stop; a first result of fewer
    than 4 pieces is rejected and the request is made again; when the
    second result has at least 4 pieces it is the value returned, the
    service has been called exactly twice, and the accepted summary is
    cached under the content. *)
Theorem summarize_validation_gate (w : World) (text : string) (st : State)
    (fuel : nat) (first second : string) :
  cache st !! text = None ->
  chat_completions_create w (tick st) (prompt_of text) = Ok first ->
  List.length (split "." (strip first)) < 4 ->
  chat_completions_create w (S (tick st)) (prompt_of text) = Ok second ->
  4 <= List.length (split "." (strip second)) ->
  summarize (S (S fuel)) w text st
  = summarize (S fuel) w text (log (EGenerate (prompt_of text)) st) /\
  result (summarize (S (S fuel)) w text st) = Ret (strip second) /\
  trace (final (summarize (S (S fuel)) w text st))
  = EGenerate (prompt_of text) :: EGenerate (prompt_of text) :: trace st /\
  generations (trace (final (summarize (S (S fuel)) w text st)))
  = 2 + generations (trace st) /\
  cache (final (summarize (S (S fuel)) w text st)) = <[text := strip second]> (cache st).
Proof.
  intros Hc H1 Hs1 H2 Hs2.
  apply too_short_lt in Hs1. apply too_short_ge in Hs2.
  rewrite (summarize_miss_short _ _ _ _ _ Hc H1 Hs1).
  split; [reflexivity|].
  rewrite (summarize_miss_accept w text fuel (log (EGenerate (prompt_of text)) st) second);
    [| exact Hc | exact H2 | exact Hs2].
  simpl. repeat split.
Qed.

Lemma summarize_validation_gate_witness :
  result (summarize 2 two_then_five "noi dung" initial_state) = Ret five_sentences /\
  generations (trace (final (summarize 2 two_then_five "noi dung" initial_state))) = 2.
Proof.
  destruct (summarize_validation_gate two_then_five "noi dung" initial_state 0
              two_sentences five_sentences)
    as (_ & Hres & _ & Hgen & _).
  - reflexivity.
  - reflexivity.
  - vm_compute. lia.
  - reflexivity.
  - vm_compute. lia.
  - split; [exact Hres | exact Hgen].
Defined.




(** C6.  Memoization: once a call has returned a summary that is not
    empty, a second call with the same content, whatever the service
    would answer and whatever the fuel, returns that summary and leaves
    the state as it was: nothing is added to the trace, so the service is
    not called. *)
Theorem summarize_memoized (w : World) (text : string) (st : State)
    (fuel : nat) (summary : string) :
  result (summarize fuel w text st) = Ret summary ->
  summary <> "" ->
  forall (fuel' : nat) (w' : World),
    summarize fuel' w' text (final (summarize fuel w text st))
    = (final (summarize fuel w text st), Ret summary).
Proof.
  intros Hres Hne fuel' w'.
  apply summarize_hit. by apply summarize_returned_cached.
Qed.

Lemma summarize_memoized_witness :
  let first := summarize 1 (service_stub (fun _ => Ok five_sentences)) "noi dung" initial_state in
  let second := summarize 1 service_down "noi dung" (final first) in
  result second = Ret five_sentences /\
  generations (trace (final first)) = 1 /\
  generations (trace (final second)) = 1.
Proof.
  cbv zeta.
  rewrite (summarize_memoized (service_stub (fun _ => Ok five_sentences)) "noi dung"
             initial_state 1 five_sentences eq_refl ltac:(discriminate) 1 service_down).
  repeat split.
Defined.

(** ** The crawler *)

Lemma adds_refl P st : adds P st st.
Proof. exists []. split; [reflexivity | constructor]. Qed.

Lemma adds_trans P a b c : adds P a b -> adds P b c -> adds P a c.
Proof.
  intros (n1 & H1 & F1) (n2 & H2 & F2). exists (n2 ++ n1). split.
  - rewrite H2, H1. apply app_assoc.
  - apply Forall_app. split; assumption.
Qed.

Lemma adds_log (P : event -> Prop) e st : P e -> adds P st (log e st).
Proof. intros H. exists [e]. split; [reflexivity | by constructor]. Qed.

Lemma crawl_step_refl st : crawl_step st st.
Proof. repeat split. apply adds_refl. Qed.

Lemma crawl_step_trans a b c : crawl_step a b -> crawl_step b c -> crawl_step a c.
Proof.
  intros (T1 & C1 & S1 & A1) (T2 & C2 & S2 & A2).
  repeat split; try congruence. eapply adds_trans; eauto.
Qed.

Lemma crawl_step_log e st : is_crawl e -> crawl_step st (log e st).
Proof. intros H. repeat split. by apply adds_log. Qed.

#[local] Instance crawl_step_preorder : PreOrder crawl_step.
Proof.
  split; [exact crawl_step_refl | exact crawl_step_trans].
Qed.

(** *** Combinators for [returns] *)

Lemma returns_ret {A} (a : A) : returns (ret a).
Proof. intros st. by exists a. Qed.

Lemma returns_bind {A B} (m : M A) (f : A -> M B) :
  returns m -> (forall a, returns (f a)) -> returns (bind m f).
Proof.
  intros Hm Hf st. unfold bind. destruct (Hm st) as [a Ha].
  destruct (m st) as [st1 r]; simpl in Ha; subst r. apply Hf.
Qed.

(** A [try] whose handlers return, returns. *)
Lemma returns_try_except {A} (body : M A) (handler : exn -> M A) :
  (forall e, returns (handler e)) -> returns (try_except body handler).
Proof.
  intros Hh st. unfold try_except.
  destruct (body st) as [st1 [a|e]]; [by exists a | apply Hh].
Qed.

Lemma returns_map_m {A B} (f : A -> M B) (l : list A) :
  (forall x, returns (f x)) -> returns (map_m f l).
Proof.
  intros Hf. induction l as [|x l IH]; simpl.
  - apply returns_ret.
  - apply returns_bind; [apply Hf | intros y].
    apply returns_bind; [exact IH | intros ys; apply returns_ret].
Qed.

(** A bind whose continuation is only run on the values [m] can return. *)
Lemma respects_bind_post (R : relation State) `{!PreOrder R} {A B}
    (Q : A -> Prop) (m : M A) (f : A -> M B) :
  respects R m ->
  (forall st a, result (m st) = Ret a -> Q a) ->
  (forall a, Q a -> respects R (f a)) ->
  respects R (bind m f).
Proof.
  intros Hm HQ Hf st. unfold bind.
  specialize (Hm st). specialize (HQ st).
  destruct (m st) as [st1 [a|e]]; simpl in *; auto.
  etrans; [exact Hm | apply Hf, HQ; reflexivity].
Qed.

Lemma respects_for_each_Forall (R : relation State) `{!PreOrder R} {A}
    (l : list A) (body : A -> M unit) :
  Forall (fun x => respects R (body x)) l -> respects R (for_each l body).
Proof.
  intros HF. induction HF as [|x l Hx HF IH]; simpl.
  - apply (respects_ret R).
  - by apply respects_bind.
Qed.

(** *** The functions of the crawler *)

Section Crawler.
Variable w : World.

Ltac crawl_bind := apply (respects_bind crawl_step).

Lemma session_get_crawl url : respects crawl_step (session_get w url).
Proof.
  intros st. unfold session_get. destruct (session st).
  - destruct (http_get w (tick st) url); simpl; by apply crawl_step_log.
  - apply crawl_step_refl.
Qed.

Lemma is_article_crawled_crawl url : respects crawl_step (is_article_crawled w url).
Proof.
  intros st. unfold is_article_crawled.
  destruct (sqlite w (tick st)); simpl; by apply crawl_step_log.
Qed.

Lemma extract_content_crawl url : respects crawl_step (extract_content w url).
Proof.
  unfold extract_content.
  apply (respects_try_except crawl_step).
  - crawl_bind; [apply session_get_crawl | intros soup].
    destruct (title_detail soup); apply (respects_ret crawl_step).
  - intros e. apply (respects_ret crawl_step).
Qed.

Lemma extract_content_returns url : returns (extract_content w url).
Proof.
  unfold extract_content. apply returns_try_except.
  intros e. apply returns_ret.
Qed.

Lemma collect_urls_crawl titles acc : respects crawl_step (collect_urls w titles acc).
Proof.
  revert acc. induction titles as [|title titles IH]; intros acc; simpl.
  - apply (respects_ret crawl_step).
  - destruct title as [|url rest]; [apply (respects_raise crawl_step)|].
    crawl_bind; [apply is_article_crawled_crawl | intros crawled; apply IH].
Qed.

Lemma get_urls_crawl article_type page_number :
  respects crawl_step (get_urls_of_type_thread w article_type page_number).
Proof.
  unfold get_urls_of_type_thread.
  apply (respects_try_except crawl_step).
  - crawl_bind; [apply session_get_crawl | intros soup].
    destruct (title_news soup); [apply (respects_ret crawl_step) | apply collect_urls_crawl].
  - intros e. apply (respects_ret crawl_step).
Qed.

Lemma get_urls_returns article_type page_number :
  returns (get_urls_of_type_thread w article_type page_number).
Proof.
  unfold get_urls_of_type_thread. apply returns_try_except.
  intros e. apply returns_ret.
Qed.

Lemma process_article_crawl url article_type :
  respects crawl_step (process_article w url article_type).
Proof.
  unfold process_article.
  crawl_bind; [apply extract_content_crawl | intros [[t d] p]].
  destruct (truthy t && (truthy d || truthy p)).
  - intros st. apply crawl_step_refl.
  - apply (respects_ret crawl_step).
Qed.

Lemma process_article_returns url article_type :
  returns (process_article w url article_type).
Proof.
  unfold process_article.
  apply returns_bind; [apply extract_content_returns | intros [[t d] p]].
  destruct (truthy t && (truthy d || truthy p)).
  - intros st. by eexists.
  - apply returns_ret.
Qed.

Lemma pages_loop_crawl article_type pages acc :
  respects crawl_step (pages_loop w article_type pages acc).
Proof.
  revert acc. induction pages as [|page pages IH]; intros acc; simpl.
  - apply (respects_ret crawl_step).
  - crawl_bind; [apply get_urls_crawl | intros urls].
    crawl_bind; [|intros gathered; apply IH].
    apply (respects_map_m crawl_step).
    intros url. apply process_article_crawl.
Qed.

Lemma pages_loop_returns article_type pages acc :
  returns (pages_loop w article_type pages acc).
Proof.
  revert acc. induction pages as [|page pages IH]; intros acc; simpl.
  - apply returns_ret.
  - apply returns_bind; [apply get_urls_returns | intros urls].
    apply returns_bind; [|intros gathered; apply IH].
    apply returns_map_m. intros url. apply process_article_returns.
Qed.

Lemma get_latest_articles_crawl article_type pages :
  respects crawl_step (get_latest_articles w article_type pages).
Proof.
  unfold get_latest_articles.
  crawl_bind; [apply pages_loop_crawl | intros arts; apply (respects_ret crawl_step)].
Qed.

Lemma get_latest_articles_returns article_type pages :
  returns (get_latest_articles w article_type pages).
Proof.
  unfold get_latest_articles.
  apply returns_bind; [apply pages_loop_returns | intros arts; apply returns_ret].
Qed.
End Crawler.

(** *** What [process_article] returns *)

Section ProcessArticle.
Variable w : World.

(** [process_article] is the test on what [extract_content] gave. *)
Lemma process_article_eq url article_type st title description paragraphs :
  result (extract_content w url st) = Ret (title, description, paragraphs) ->
  process_article w url article_type st
  = (final (extract_content w url st),
     Ret (if truthy title && (truthy description || truthy paragraphs)
          then Some (mkArticle (fmt title)
                       (fmt description +:+ nl +:+ fmt paragraphs)
                       url article_type
                       (now w (tick (final (extract_content w url st)))))
          else None)).
Proof.
  intros Hex. unfold process_article, bind.
  destruct (extract_content w url st) as [st1 r]. simpl in *. subst r.
  by destruct (truthy title && (truthy description || truthy paragraphs)).
Qed.

Lemma skip_test title description paragraphs :
  skip (title, description, paragraphs) ->
  truthy title && (truthy description || truthy paragraphs) = false.
Proof.
  intros [Ht|[Hd Hp]].
  - by rewrite Ht.
  - rewrite Hd, Hp. by destruct (truthy title).
Qed.

Lemma append_nonempty_r a b : nonempty b = true -> nonempty (a +:+ b) = true.
Proof. destruct a; simpl; auto. Qed.

Lemma nl_nonempty s : nonempty (nl +:+ s) = true.
Proof. reflexivity. Qed.

Lemma truthy_fmt o : truthy o = true -> fmt o <> "".
Proof. destruct o as [[|c s]|]; simpl; intros H; by try discriminate. Qed.

(** The shape of a returned article. *)
Lemma process_article_some url article_type st a :
  result (process_article w url article_type st) = Ret (Some a) ->
  a_url a = url /\ a_category a = article_type /\ a_title a <> "" /\
  exists title description paragraphs,
    result (extract_content w url st) = Ret (title, description, paragraphs) /\
    ~ skip (title, description, paragraphs) /\
    a_content a = fmt description +:+ nl +:+ fmt paragraphs /\
    (fmt description <> "" \/ fmt paragraphs <> "").
Proof.
  intros Hres.
  destruct (extract_content_returns w url st) as [[[t d] p] Hex].
  rewrite (process_article_eq _ _ _ _ _ _ Hex) in Hres. simpl in Hres.
  destruct (truthy t && (truthy d || truthy p)) eqn:Htest; [|discriminate].
  inversion Hres; subst a; simpl.
  apply andb_true_iff in Htest as [Ht Hdp]. apply orb_true_iff in Hdp.
  repeat split; [by apply truthy_fmt|].
  exists t, d, p. repeat split.
  - exact Hex.
  - intros Hskip. apply skip_test in Hskip. rewrite Ht in Hskip. simpl in Hskip.
    destruct Hdp as [H|H]; rewrite H in Hskip; simpl in Hskip;
      [discriminate | by rewrite orb_true_r in Hskip].
  - destruct Hdp as [H|H]; [left | right]; by apply truthy_fmt.
Qed.

(** Where the results of [map_m] come from. *)
Lemma map_m_origin {A B} (f : A -> M B) (l : list A) st ys :
  result (map_m f l st) = Ret ys ->
  Forall (fun y => exists x st', result (f x st') = Ret y) ys.
Proof.
  revert st ys. induction l as [|x l IH]; intros st ys; simpl.
  - intros [= <-]. constructor.
  - unfold bind at 1. destruct (f x st) as [st1 [y|e]] eqn:Hfx; simpl; try discriminate.
    unfold bind. destruct (map_m f l st1) as [st2 [ys'|e]] eqn:Hrest; simpl;
      try discriminate.
    intros [= <-]. constructor.
    + exists x, st. by rewrite Hfx.
    + apply (IH st1). by rewrite Hrest.
Qed.

Lemma pages_loop_origin article_type pages acc st found :
  Forall (fun o => forall a, o = Some a -> processed w article_type a) acc ->
  result (pages_loop w article_type pages acc st) = Ret found ->
  Forall (fun o => forall a, o = Some a -> processed w article_type a) found.
Proof.
  revert acc st. induction pages as [|page pages IH]; intros acc st Hacc; simpl.
  - by intros [= <-].
  - unfold bind at 1.
    destruct (get_urls_of_type_thread w article_type page st) as [st1 [urls|e]];
      simpl; try discriminate.
    unfold bind at 1.
    destruct (map_m (fun url => process_article w url article_type) urls st1)
      as [st2 [gathered|e]] eqn:Hg; simpl; try discriminate.
    apply IH. apply Forall_app. split; [exact Hacc|].
    assert (Hres : result (map_m (fun url => process_article w url article_type) urls st1)
                   = Ret gathered) by by rewrite Hg.
    apply map_m_origin in Hres.
    eapply Forall_impl; [exact Hres|]. simpl.
    intros o (url & st' & Ho) a ->. by exists url, st'.
Qed.

(** Every article of [get_latest_articles] was returned by a call of
    [process_article]. *)
Lemma get_latest_articles_origin article_type pages st articles :
  result (get_latest_articles w article_type pages st) = Ret articles ->
  Forall (processed w article_type) articles.
Proof.
  unfold get_latest_articles, bind.
  destruct (pages_loop w article_type (range 1 (pages + 1)) [] st)
    as [st1 [found|e]] eqn:Hloop; simpl; try discriminate.
  intros [= <-].
  assert (Hf : Forall (fun o => forall a, o = Some a -> processed w article_type a) found).
  { apply (pages_loop_origin article_type (range 1 (pages + 1)) [] st);
      [constructor | by rewrite Hloop]. }
  clear Hloop. induction Hf as [|o found Ho Hf IH]; simpl; [constructor|].
  destruct o as [a|]; simpl; [constructor; auto | exact IH].
Qed.
End ProcessArticle.

(** ** The orchestrator *)

#[local] Instance keeps_preorder (I : State -> Prop) : PreOrder (keeps I).
Proof. split; [intros st H; exact H | intros a b c Hab Hbc H; auto]. Qed.

Section HandleArticle.
Variable w : World.

(** [post_update] always returns, whether the message went out or not. *)
Lemma post_update_eq article summary st :
  post_update w article summary st
  = (log (EPost article summary (message_of article summary)
            (delivered w article summary st)) st, Ret tt).
Proof.
  unfold post_update, try_except, bot_send_message, delivered.
  by destruct (send_message w (tick st) (message_of article summary)) as [[]|e].
Qed.

Lemma insert_article_eq article summary st :
  insert_article w article summary st
  = match sqlite w (tick st) with
    | Ok _ => (log (EInsert (row_of w article summary st) true)
                 (set_table (<[a_url article := row_of w article summary st]> (table st)) st),
               Ret tt)
    | Fail e => (log (EInsert (row_of w article summary st) false) st, Raise e)
    end.
Proof. reflexivity. Qed.

(** [handle_article], by the result of [summarize]. *)
Lemma handle_article_eq fuel article st :
  handle_article fuel w article st
  = if nonempty (a_content article) then
      match summarize fuel w (a_content article) st with
      | (st1, Ret summary) =>
          if nonempty summary then
            insert_article w article summary
              (log (EPost article summary (message_of article summary)
                      (delivered w article summary st1)) st1)
          else (st1, Ret tt)
      | (st1, Raise e) => (st1, Raise e)
      end
    else (st, Ret tt).
Proof.
  unfold handle_article. destruct (nonempty (a_content article)); [|reflexivity].
  unfold bind at 1.
  destruct (summarize fuel w (a_content article) st) as [st1 [summary|e]];
    try reflexivity.
  destruct (nonempty summary); [|reflexivity].
  unfold bind. by rewrite post_update_eq.
Qed.

Lemma nonempty_true s : nonempty s = true <-> s <> "".
Proof. destruct s; simpl; split; intros H; congruence. Qed.

(** What [handle_article] leaves behind: either requests to the service
    only, or, after [summarize] returned a summary that is not empty,
    one message and one call of [insert_article] for that summary. *)
Lemma handle_article_trace fuel article st :
  let s1 := final (summarize fuel w (a_content article) st) in
  let st' := final (handle_article fuel w article st) in
  session st' = session st /\
  (cache st' = cache s1 \/ cache st' = cache st) /\
  exists n,
    (table st' = table st /\
     trace st' = repeat (EGenerate (prompt_of (a_content article))) n ++ trace st)
    \/
    (exists summary r ok sent,
       result (summarize fuel w (a_content article) st) = Ret summary /\
       summary <> "" /\ r_url r = a_url article /\ r_summary r = summary /\
       trace st'
       = EInsert r ok :: EPost article summary (message_of article summary) sent
           :: repeat (EGenerate (prompt_of (a_content article))) n ++ trace st /\
       table st' = if ok then <[a_url article := r]> (table st) else table st).
Proof.
  cbv zeta. rewrite handle_article_eq.
  destruct (nonempty (a_content article)).
  2:{ simpl. repeat split; [by right|]. exists 0. by left. }
  destruct (summarize_frame w (a_content article) fuel st) as (Ht & Hs & n & Hn).
  cbv zeta in Ht, Hs, Hn.
  destruct (summarize fuel w (a_content article) st) as [st1 [summary|e]] eqn:Hsum;
    simpl in Ht, Hs, Hn; simpl.
  2: (repeat split; [done | by left | exists n; by left]).
  destruct (nonempty summary) eqn:Hne; simpl.
  2:{ repeat split; [done | by left | exists n; by left]. }
  rewrite insert_article_eq.
  set (st2 := log _ st1).
  destruct (sqlite w (tick st2)) as [[]|e]; simpl;
    (repeat split; [done | by left |]); exists n; right;
    exists summary, (row_of w article summary st2); eexists; eexists;
    (repeat split; [by apply nonempty_true | by rewrite Hn | by rewrite ?Ht]).
Qed.
End HandleArticle.

(** *** Invariants of a cycle *)

Section CategoryInvariant.
Variable w : World.
Variable I : State -> Prop.

(** [I] survives discovery and extraction, and the handling of an
    article that [process_article] returned. *)
Hypothesis I_crawl : forall st st', crawl_step st st' -> I st -> I st'.
Hypothesis I_handle :
  forall fuel category article st,
    processed w category article -> I st ->
    I (final (handle_article fuel w article st)).

Lemma handle_category_keeps fuel category :
  respects (keeps I) (handle_category fuel w category).
Proof.
  unfold handle_category.
  apply (respects_bind_post (keeps I)
           (fun articles => Forall (processed w category) articles)).
  - intros st HI. eapply I_crawl; [apply get_latest_articles_crawl | exact HI].
  - intros st articles. apply get_latest_articles_origin.
  - intros articles Hall. apply (respects_for_each_Forall (keeps I)).
    eapply Forall_impl; [exact Hall|]. simpl.
    intros a Ha st HI. by apply (I_handle fuel category).
Qed.
End CategoryInvariant.

Section CycleInvariant.
Variable w : World.
Variable I : State -> Prop.

(** [I] survives the bookkeeping of the session and of the summarizer,
    the creation of the table, and each configured category. *)
Hypothesis I_session : forall st b, I st -> I (set_session b st).
Hypothesis I_new_cache : forall st, I st -> I (set_cache ∅ st).
Hypothesis I_create : forall st ok, I st -> I (log (ECreate ok) st).
Hypothesis I_category :
  forall fuel category,
    In category (values article_type_dict) ->
    respects (keeps I) (handle_category fuel w category).

Lemma create_table_keeps : respects (keeps I) (create_table w).
Proof.
  intros st. unfold create_table.
  destruct (sqlite w (tick st)); simpl; intros HI; by apply I_create.
Qed.

Lemma create_session_keeps : respects (keeps I) create_session.
Proof. intros st HI. by apply I_session. Qed.

Lemma close_session_keeps : respects (keeps I) close_session.
Proof.
  intros st. unfold close_session.
  destruct (session st); simpl; intros HI; [by apply I_session | done].
Qed.

Lemma process_articles_keeps fuel : respects (keeps I) (process_articles fuel w).
Proof.
  intros st HI. unfold process_articles.
  set (st0 := set_session false (set_cache ∅ st)).
  assert (H0 : I st0) by by apply I_session, I_new_cache.
  revert H0. generalize st0. clear st HI st0.
  change (respects (keeps I)
            (create_table w ;;; create_session ;;;
             try_finally
               (try_except
                  (for_each (values article_type_dict) (handle_category fuel w))
                  (fun e => ret tt))
               close_session)).
  apply (respects_bind (keeps I)); [apply create_table_keeps | intros _].
  apply (respects_bind (keeps I)); [apply create_session_keeps | intros _].
  apply (respects_try_finally (keeps I)); [|apply close_session_keeps].
  apply (respects_try_except (keeps I)).
  - apply (respects_for_each_Forall (keeps I)).
    apply Forall_forall. intros c Hc. apply I_category. by apply list_elem_of_In.
  - intros e. apply (respects_ret (keeps I)).
Qed.
End CycleInvariant.

(** An invariant of every cycle is an invariant of [main]. *)
Lemma main_keeps (I : State -> Prop) :
  (forall fuel w, respects (keeps I) (process_articles fuel w)) ->
  forall cycles, respects (keeps I) (main cycles).
Proof.
  intros Hc cycles. induction cycles as [|[fuel w] cycles IH]; simpl.
  - apply (respects_ret (keeps I)).
  - apply (respects_bind (keeps I)); [apply Hc | intros _; exact IH].
Qed.

(** *** The four invariants *)

Lemma inserts_nonempty_app new t :
  Forall not_insert new -> inserts_nonempty t -> inserts_nonempty (new ++ t).
Proof.
  intros Hn Ht r ok Hin. apply in_app_or in Hin as [Hin|Hin]; [|eauto].
  rewrite Forall_forall in Hn. apply list_elem_of_In, Hn in Hin. destruct Hin.
Qed.

Lemma attempt_precedes_cons e t :
  not_insert e -> attempt_precedes t -> attempt_precedes (e :: t).
Proof.
  intros He Ht newer r ok older Heq.
  destruct newer as [|e' newer]; simpl in Heq; inversion Heq; subst.
  - destruct He.
  - by eapply Ht.
Qed.

Lemma attempt_precedes_app new t :
  Forall not_insert new -> attempt_precedes t -> attempt_precedes (new ++ t).
Proof.
  intros Hn Ht. induction Hn as [|e new He Hn IH]; simpl; [exact Ht|].
  by apply attempt_precedes_cons.
Qed.

Lemma attempt_precedes_insert r ok a text sent t :
  a_url a = r_url r ->
  attempt_precedes t ->
  attempt_precedes (EInsert r ok :: EPost a (r_summary r) text sent :: t).
Proof.
  intros Hu Ht newer r' ok' older Heq.
  destruct newer as [|e newer]; simpl in Heq; inversion Heq; subst.
  - by exists a, text, sent, t.
  - destruct newer as [|e' newer]; simpl in *; inversion H1; subst.
    by eapply Ht.
Qed.

Lemma crawl_not_insert e : is_crawl e -> not_insert e.
Proof. by destruct e. Qed.

Lemma repeat_generate_not_insert p n : Forall not_insert (repeat (EGenerate p) n).
Proof. induction n; simpl; by constructor. Qed.

Lemma in_generated_segment e p n t :
  In e (repeat (EGenerate p) n ++ t) -> e = EGenerate p \/ In e t.
Proof.
  intros H. apply in_app_or in H as [H|H]; [left | by right].
  by apply repeat_spec in H.
Qed.

(** **** Rows and calls of [insert_article] carry a summary *)

Lemma store_ok_crawl st st' : crawl_step st st' -> store_ok st -> store_ok st'.
Proof.
  intros (Ht & _ & _ & new & Hn & HF) [Hrows Hins]. split.
  - intros url r. rewrite Ht. apply Hrows.
  - rewrite Hn. apply inserts_nonempty_app; [|exact Hins].
    eapply Forall_impl; [exact HF | exact crawl_not_insert].
Qed.

Lemma store_ok_handle w fuel article st :
  store_ok st -> store_ok (final (handle_article fuel w article st)).
Proof.
  intros [Hrows Hins].
  destruct (handle_article_trace w fuel article st)
    as (_ & _ & n & [[Ht Htr] | (s & r & ok & sent & _ & Hne & Hu & Hs & Htr & Ht)]).
  - split.
    + intros url r. rewrite Ht. apply Hrows.
    + rewrite Htr. apply inserts_nonempty_app;
        [apply repeat_generate_not_insert | exact Hins].
  - split.
    + intros url r'. rewrite Ht. destruct ok; [|apply Hrows].
      rewrite lookup_insert. case_decide; [|apply Hrows].
      intros [= <-]. by rewrite Hs.
    + rewrite Htr. intros r' ok' [Heq|[Heq|Hin]]; try discriminate.
      * injection Heq as <- <-. by rewrite Hs.
      * apply in_generated_segment in Hin as [Heq|Hin]; [discriminate | eauto].
Qed.

Lemma process_articles_store_ok fuel w :
  respects (keeps store_ok) (process_articles fuel w).
Proof.
  apply process_articles_keeps.
  - by intros st b H.
  - by intros st H.
  - intros st ok [Hrows Hins]. split; [exact Hrows|].
    intros r ok' [Heq|Hin]; [discriminate | eauto].
  - intros fuel' category _. apply handle_category_keeps.
    + exact store_ok_crawl.
    + intros f c a st _. apply store_ok_handle.
Qed.

(** **** Each write follows a publish attempt *)

Lemma rows_logged_extend st st' new :
  table st' = table st -> trace st' = new ++ trace st ->
  rows_logged st -> rows_logged st'.
Proof.
  intros Ht Htr H url r. rewrite Ht, Htr. intros Hr.
  destruct (H url r Hr) as [Hu Hin]. split; [exact Hu|].
  apply in_or_app. by right.
Qed.

Lemma audit_ok_crawl st st' : crawl_step st st' -> audit_ok st -> audit_ok st'.
Proof.
  intros (Ht & _ & _ & new & Hn & HF) [Hap Hrl]. split.
  - rewrite Hn. apply attempt_precedes_app; [|exact Hap].
    eapply Forall_impl; [exact HF | exact crawl_not_insert].
  - by eapply rows_logged_extend.
Qed.

Lemma audit_ok_handle w fuel article st :
  audit_ok st -> audit_ok (final (handle_article fuel w article st)).
Proof.
  intros [Hap Hrl].
  destruct (handle_article_trace w fuel article st)
    as (_ & _ & n & [[Ht Htr] | (s & r & ok & sent & _ & Hne & Hu & Hs & Htr & Ht)]).
  - split.
    + rewrite Htr. apply attempt_precedes_app;
        [apply repeat_generate_not_insert | exact Hap].
    + by eapply rows_logged_extend.
  - split.
    + rewrite Htr, <- Hs. apply attempt_precedes_insert; [by rewrite Hu|].
      apply attempt_precedes_app; [apply repeat_generate_not_insert | exact Hap].
    + intros url r'. rewrite Ht, Htr.
      assert (Hold : table st !! url = Some r' ->
                     r_url r' = url /\
                     In (EInsert r' true)
                        (EInsert r ok :: EPost article s (message_of article s) sent
                           :: repeat (EGenerate (prompt_of (a_content article))) n ++ trace st)).
      { intros Hr. destruct (Hrl url r' Hr) as [Hu' Hin]. split; [exact Hu'|].
        right. right. apply in_or_app. by right. }
      destruct ok; [|exact Hold].
      rewrite lookup_insert. case_decide; [|exact Hold].
      intros [= <-]. split; [congruence | by left].
Qed.

Lemma process_articles_audit_ok fuel w :
  respects (keeps audit_ok) (process_articles fuel w).
Proof.
  apply process_articles_keeps.
  - by intros st b H.
  - by intros st H.
  - intros st ok [Hap Hrl]. split.
    + by apply attempt_precedes_cons.
    + by apply (rows_logged_extend st _ [ECreate ok]).
  - intros fuel' category _. apply handle_category_keeps.
    + exact audit_ok_crawl.
    + intros f c a st _. apply audit_ok_handle.
Qed.

(** **** The cache holds accepted summaries only *)

Lemma cache_valid_handle w fuel article st :
  cache_valid st -> cache_valid (final (handle_article fuel w article st)).
Proof.
  intros Hv.
  destruct (handle_article_trace w fuel article st) as (_ & [Hc|Hc] & _).
  - intros k v. rewrite Hc. by apply summarize_keeps_cache_valid.
  - intros k v. rewrite Hc. apply Hv.
Qed.

Lemma process_articles_cache_valid fuel w :
  respects (keeps cache_valid) (process_articles fuel w).
Proof.
  apply process_articles_keeps.
  - by intros st b H.
  - intros st _ k v. simpl. by rewrite lookup_empty.
  - by intros st ok H.
  - intros fuel' category _. apply handle_category_keeps.
    + intros st st' (_ & Hc & _) Hv k v. rewrite Hc. apply Hv.
    + intros f c a st _. apply cache_valid_handle.
Qed.

(** **** A cycle does nothing about a URL that is always skipped *)

Lemma since_extend t0 (P : event -> Prop) st st' new :
  trace st' = new ++ trace st -> Forall P new -> since t0 P st -> since t0 P st'.
Proof.
  intros Htr HF (old & Ho & HFo). exists (new ++ old). split.
  - rewrite Htr, Ho. apply app_assoc.
  - apply Forall_app. by split.
Qed.

Lemma since_start (P : event -> Prop) st : since (trace st) P st.
Proof. exists []. split; [reflexivity | constructor]. Qed.

Lemma process_articles_not_about fuel w url st :
  always_skipped w url ->
  since (trace st) (fun e => ~ about url e) (final (process_articles fuel w st)).
Proof.
  intros Hsk.
  apply (process_articles_keeps w (since (trace st) (fun e => ~ about url e)));
    [by intros s b H | by intros s H | | | apply since_start].
  - intros s ok. apply (since_extend _ _ s _ [ECreate ok]); [reflexivity|].
    constructor; [by intros [] | constructor].
  - intros fuel' category _. apply handle_category_keeps.
    + intros s s' (_ & _ & _ & new & Hn & HF). apply (since_extend _ _ s s' new Hn).
      eapply Forall_impl; [exact HF|]. intros e He Ha. by destruct e.
    + intros f c a s Hproc.
      assert (Hne : a_url a <> url).
      { destruct Hproc as (u & s0 & Ha). intros Heq.
        apply process_article_some in Ha as (Hu & _ & _ & t & d & p & Hex & Hns & _).
        apply Hns. apply (Hsk s0). congruence. }
      assert (Hgen : forall n, Forall (fun e => ~ about url e)
                                 (repeat (EGenerate (prompt_of (a_content a))) n)).
      { intros n. induction n; simpl; constructor; auto. }
      destruct (handle_article_trace w f a s)
        as (_ & _ & n & [[Ht Htr] | (sm & r & ok & sent & _ & _ & Hu & _ & Htr & _)]).
      * by apply (since_extend _ _ s _ _ Htr).
      * apply (since_extend _ _ s _
                 (EInsert r ok :: EPost a sm (message_of a sm) sent
                    :: repeat (EGenerate (prompt_of (a_content a))) n)); [exact Htr|].
        constructor; [simpl; congruence|]. constructor; [simpl; congruence|]. apply Hgen.
Qed.

(** ** Discovery against the store *)

Section Seen.
Variable w : World.

Lemma quiet_crawl e : is_crawl e -> quiet e.
Proof. by destruct e. Qed.

(** Links that all have a row add nothing to the list. *)
Lemma collect_urls_seen titles acc st :
  (forall title url rest,
     In title titles -> title = url :: rest -> is_Some (table st !! url)) ->
  result (collect_urls w titles acc st) = Ret acc \/
  exists e, result (collect_urls w titles acc st) = Raise e.
Proof.
  revert st. induction titles as [|title titles IH]; intros st Hseen; simpl.
  - by left.
  - destruct title as [|url rest]; [right; by eexists|].
    unfold bind, is_article_crawled.
    destruct (sqlite w (tick st)) as [[]|e]; simpl; [|right; by eexists].
    rewrite bool_decide_eq_true_2 by (eapply Hseen; [by left | reflexivity]).
    simpl. apply IH. intros t u r Hin Heq. simpl.
    eapply Hseen; [right; exact Hin | exact Heq].
Qed.

(** A link is added to the list only when it has no row. *)
Lemma collect_urls_unseen titles acc st urls :
  (forall u, In u acc -> table st !! u = None) ->
  result (collect_urls w titles acc st) = Ret urls ->
  forall u, In u urls -> table st !! u = None.
Proof.
  revert st acc. induction titles as [|title titles IH]; intros st acc Hacc; simpl.
  - by intros [= <-].
  - destruct title as [|url rest]; [discriminate|].
    unfold bind, is_article_crawled.
    destruct (sqlite w (tick st)) as [[]|e]; simpl; [|discriminate].
    intros Hres.
    apply (IH (log (ESelect url true) st)
             (if negb (bool_decide (is_Some (table st !! url)))
              then acc ++ [url] else acc)); [|exact Hres].
    simpl. intros u Hin. case_bool_decide as Hd; simpl in Hin; [by apply Hacc|].
    apply in_app_or in Hin as [Hin|[<-|[]]]; [by apply Hacc|].
    by apply eq_None_not_Some.
Qed.

Lemma get_urls_unseen article_type page_number st urls :
  result (get_urls_of_type_thread w article_type page_number st) = Ret urls ->
  forall u, In u urls -> table st !! u = None.
Proof.
  unfold get_urls_of_type_thread, try_except, bind, session_get.
  destruct (session st); simpl; [|by intros [= <-] u []].
  destruct (http_get w (tick st) (page_url_of article_type page_number))
    as [soup|e]; simpl; [|by intros [= <-] u []].
  destruct (title_news soup) as [|t ts] eqn:Htn; [by intros [= <-] u [] | cbv beta iota].
  intros Hres.
  destruct (collect_urls w (t :: ts) [] (log (EGet (page_url_of article_type page_number)) st))
    as [st1 [l|e]] eqn:Hc; simpl in Hres.
  - injection Hres as <-.
    apply (collect_urls_unseen (t :: ts) []
             (log (EGet (page_url_of article_type page_number)) st));
      [by intros u [] | by rewrite Hc].
  - unfold ret in Hres. simpl in Hres. injection Hres as <-. by intros u [].
Qed.

Lemma get_urls_seen article_type page_number st :
  listing_persisted w (table st) ->
  In article_type (values article_type_dict) ->
  In page_number (range 1 3) ->
  result (get_urls_of_type_thread w article_type page_number st) = Ret [].
Proof.
  intros Hlp Hcat Hpage.
  unfold get_urls_of_type_thread, try_except, bind, session_get.
  destruct (session st); simpl; [|reflexivity].
  destruct (http_get w (tick st) (page_url_of article_type page_number))
    as [soup|e] eqn:Hget; simpl; [|reflexivity].
  destruct (title_news soup) as [|t ts] eqn:Htn; [reflexivity | cbv beta iota].
  destruct (collect_urls_seen (t :: ts) []
              (log (EGet (page_url_of article_type page_number)) st)) as [Hr|[e Hr]].
  - intros title url rest Hin Heq. simpl.
    eapply (Hlp _ _ _ _ _ _ _ Hcat Hpage Hget); [by rewrite Htn | exact Heq].
  - destruct (collect_urls w (t :: ts) [] _) as [st1 r]. simpl in Hr. by subst r.
  - destruct (collect_urls w (t :: ts) [] _) as [st1 r]. simpl in Hr. by subst r.
Qed.

Lemma pages_loop_seen article_type pages st :
  listing_persisted w (table st) ->
  In article_type (values article_type_dict) ->
  (forall page, In page pages -> In page (range 1 3)) ->
  result (pages_loop w article_type pages [] st) = Ret [].
Proof.
  revert st. induction pages as [|page pages IH]; intros st Hlp Hcat Hpages; simpl.
  - reflexivity.
  - unfold bind at 1.
    pose proof (get_urls_seen article_type page st Hlp Hcat (Hpages page (or_introl eq_refl)))
      as Hurls.
    pose proof (get_urls_crawl w article_type page st) as (Ht & _).
    destruct (get_urls_of_type_thread w article_type page st) as [st1 r].
    simpl in Hurls, Ht. subst r. simpl.
    apply IH; [by rewrite Ht | exact Hcat | intros p Hp; apply Hpages; by right].
Qed.

Lemma handle_category_seen fuel article_type st :
  listing_persisted w (table st) ->
  In article_type (values article_type_dict) ->
  handle_category fuel w article_type st
  = (final (get_latest_articles w article_type 2 st), Ret tt).
Proof.
  intros Hlp Hcat. unfold handle_category, get_latest_articles.
  change (range 1 (2 + 1)) with (range 1 3).
  unfold bind.
  pose proof (pages_loop_seen article_type (range 1 3) st Hlp Hcat (fun p H => H)) as Hr.
  destruct (pages_loop w article_type (range 1 3) [] st) as [st1 r].
  simpl in Hr. by subst r.
Qed.

(** With every listed URL persisted, a cycle keeps the table and is
    quiet. *)
Lemma process_articles_seen fuel st :
  listing_persisted w (table st) ->
  table (final (process_articles fuel w st)) = table st /\
  since (trace st) quiet (final (process_articles fuel w st)).
Proof.
  intros Hlp.
  apply (process_articles_keeps w
           (fun s => table s = table st /\ since (trace st) quiet s));
    [by intros s b H | by intros s H | | | split; [reflexivity | apply since_start]].
  - intros s ok [Ht Hs]. split; [exact Ht|].
    apply (since_extend _ _ s _ [ECreate ok]); [reflexivity | | exact Hs].
    by constructor.
  - intros fuel' category Hcat s [Ht Hs].
    rewrite handle_category_seen; [| by rewrite Ht | exact Hcat]. simpl.
    destruct (get_latest_articles_crawl w category 2 s) as (Ht' & _ & _ & new & Hn & HF).
    split; [congruence|].
    apply (since_extend _ _ s _ new Hn); [|exact Hs].
    eapply Forall_impl; [exact HF | exact quiet_crawl].
Qed.
End Seen.

(** ** Claims about the crawler and the orchestrator *)

Lemma initial_store_ok : store_ok initial_state.
Proof.
  split.
  - intros url r H. cbn [table initial_state] in H. by rewrite lookup_empty in H.
  - intros r ok [].
Qed.

Lemma initial_audit_ok : audit_ok initial_state.
Proof.
  split.
  - intros newer r ok older H. by destruct newer.
  - intros url r H. cbn [table initial_state] in H. by rewrite lookup_empty in H.
Qed.

Lemma initial_cache_valid : cache_valid initial_state.
Proof. intros k v H. cbn [cache initial_state] in H. by rewrite lookup_empty in H. Qed.

(** C1, as the code has it.  [post_update] catches a failed delivery and
    returns as after a delivered one, and the orchestrator then calls
    [insert_article] whenever [summarize] returned a summary that is not
    empty, whether the message was delivered or not: after a failed
    delivery the row is written as soon as the database accepts it.  So
    in every run each call of [insert_article] directly follows a call
    of [send_message] for the same article and summary, delivered or
    not; and each row of the store was written by such a call: a URL has
    a row only if a publish call for it was made first. *)
Theorem insert_follows_publish_attempt (cycles : list (nat * World)) :
  (forall w article summary st,
     result (post_update w article summary st) = Ret tt) /\
  (forall fuel w article st summary,
     nonempty (a_content article) = true ->
     result (summarize fuel w (a_content article) st) = Ret summary ->
     summary <> "" ->
     handle_article fuel w article st
     = insert_article w article summary
         (log (EPost article summary (message_of article summary)
                 (delivered w article summary
                    (final (summarize fuel w (a_content article) st))))
            (final (summarize fuel w (a_content article) st))) /\
     forall e,
       send_message w (tick (final (summarize fuel w (a_content article) st)))
         (message_of article summary) = Fail e ->
       sqlite w (S (tick (final (summarize fuel w (a_content article) st)))) = Ok tt ->
       exists r,
         table (final (handle_article fuel w article st)) !! a_url article = Some r /\
         r_summary r = summary) /\
  attempt_precedes (trace (final (main cycles initial_state))) /\
  (forall url r,
     table (final (main cycles initial_state)) !! url = Some r ->
     exists a text sent newer older,
       trace (final (main cycles initial_state))
       = newer ++ EInsert r true :: EPost a (r_summary r) text sent :: older /\
       a_url a = url).
Proof.
  split; [intros w a s st; by rewrite post_update_eq|].
  split.
  { intros fuel w article st summary Hcontent Hres Hne.
    assert (Heq : handle_article fuel w article st
                  = insert_article w article summary
                      (log (EPost article summary (message_of article summary)
                              (delivered w article summary
                                 (final (summarize fuel w (a_content article) st))))
                         (final (summarize fuel w (a_content article) st)))).
    { rewrite handle_article_eq, Hcontent.
      destruct (summarize fuel w (a_content article) st) as [s1 r].
      simpl in Hres. subst r. apply nonempty_true in Hne. by rewrite Hne. }
    split; [exact Heq|].
    intros e Hsend Hdb. rewrite Heq, insert_article_eq.
    change (tick (log ?ev ?s)) with (S (tick s)). rewrite Hdb.
    eexists. cbn [final fst table log set_table]. rewrite lookup_insert_eq.
    by split. }
  destruct (main_keeps audit_ok process_articles_audit_ok cycles initial_state
              initial_audit_ok) as [Hap Hrl].
  split; [exact Hap|].
  intros url r Hr. destruct (Hrl url r Hr) as [Hu Hin].
  apply in_split in Hin as (newer & older & Heq).
  destruct (Hap newer r true older Heq) as (a & text & sent & rest & -> & Ha).
  exists a, text, sent, newer, rest. split; [exact Heq | congruence].
Qed.

Lemma insert_follows_publish_attempt_witness :
  (exists r,
     table (final (handle_article 1 telegram_down
                     (mkArticle "Tieu de" "Noi dung" article_url "tin-nong" "2024")
                     initial_state)) !! article_url = Some r /\
     r_summary r = five_sentences) /\
  exists a text sent newer older,
    trace (final (main [(1, telegram_down)] initial_state))
    = newer ++ EInsert article_row true
        :: EPost a (r_summary article_row) text sent :: older /\
    a_url a = article_url.
Proof.
  destruct (insert_follows_publish_attempt [(1, telegram_down)])
    as (_ & Hcall & _ & Hrows).
  split.
  - destruct (Hcall 1 telegram_down
                (mkArticle "Tieu de" "Noi dung" article_url "tin-nong" "2024")
                initial_state five_sentences eq_refl eq_refl ltac:(discriminate))
      as [_ Hfailed].
    apply (Hfailed (Exception "chat not found")); reflexivity.
  - apply (Hrows article_url article_row).
    vm_compute. reflexivity.
Defined.

(** C1, as stated, fails: with the chat API down the article is
    summarized, the delivery fails, and the row is written all the same;
    no delivered message for the URL is in the trace. *)
Lemma persisted_without_delivery :
  table (final (process_articles 1 telegram_down initial_state)) !! article_url
  = Some article_row /\
  ~ delivered_before_persisted (final (process_articles 1 telegram_down initial_state)).
Proof.
  assert (Hrow : table (final (process_articles 1 telegram_down initial_state))
                   !! article_url = Some article_row) by (vm_compute; reflexivity).
  split; [exact Hrow|].
  intros Hclaim. destruct (Hclaim _ _ Hrow) as (a & s & text & Hin & _).
  vm_compute in Hin.
  repeat (destruct Hin as [Hin|Hin]; [discriminate|]). exact Hin.
Qed.

(** C4.  No reachable store has a row with an empty summary: in every
    run, every call of [insert_article] carries a summary that is not
    empty, and an article changes the table only after [summarize]
    returned a string that is not empty for its content. *)
Theorem persisted_summaries_nonempty (cycles : list (nat * World)) :
  summaries_nonempty (final (main cycles initial_state)) /\
  inserts_nonempty (trace (final (main cycles initial_state))) /\
  (forall fuel w article st,
     table (final (handle_article fuel w article st)) <> table st ->
     exists summary,
       result (summarize fuel w (a_content article) st) = Ret summary /\
       summary <> "").
Proof.
  destruct (main_keeps store_ok process_articles_store_ok cycles initial_state
              initial_store_ok) as [Hrows Hins].
  split; [exact Hrows|]. split; [exact Hins|].
  intros fuel w article st Hchg.
  destruct (handle_article_trace w fuel article st)
    as (_ & _ & n & [[Ht _] | (s & r & ok & sent & Hres & Hne & _)]).
  - by destruct Hchg.
  - by exists s.
Qed.

Lemma persisted_summaries_nonempty_witness :
  table (final (main [(1, all_up)] initial_state)) !! article_url = Some article_row /\
  r_summary article_row <> "".
Proof.
  assert (Hrow : table (final (main [(1, all_up)] initial_state)) !! article_url
                 = Some article_row) by (vm_compute; reflexivity).
  split; [exact Hrow|].
  destruct (persisted_summaries_nonempty [(1, all_up)]) as (Hrows & _ & _).
  exact (Hrows article_url article_row Hrow).
Defined.

(** C5.  Idempotence of a cycle.  The listing discoverer yields a URL
    only if the store has no row for it.  So when, after a first cycle,
    every URL the listing pages show has a row, a second cycle over the
    same site leaves the table as it is and adds to the trace no request
    to the generation service, no message and no write. *)
Theorem second_cycle_idempotent (fuel1 fuel2 : nat) (w : World) (st0 : State) :
  (forall article_type page_number st urls,
     result (get_urls_of_type_thread w article_type page_number st) = Ret urls ->
     forall url, In url urls -> table st !! url = None) /\
  (listing_persisted w (table (final (process_articles fuel1 w st0))) ->
   table (final (process_articles fuel2 w (final (process_articles fuel1 w st0))))
   = table (final (process_articles fuel1 w st0)) /\
   since (trace (final (process_articles fuel1 w st0))) quiet
     (final (process_articles fuel2 w (final (process_articles fuel1 w st0))))).
Proof.
  split.
  - intros article_type page_number st urls. apply get_urls_unseen.
  - intros Hlp. by apply process_articles_seen.
Qed.

Lemma all_up_listing_persisted :
  listing_persisted all_up (table (final (process_articles 1 all_up initial_state))).
Proof.
  intros n category page soup title url rest Hcat Hpage Hget Hin Heq.
  assert (Hsoup : soup = listing_soup).
  { vm_compute in Hcat, Hpage.
    destruct Hcat as [<-|[<-|[<-|[]]]]; destruct Hpage as [<-|[<-|[]]];
      vm_compute in Hget; first [discriminate | injection Hget as <-; reflexivity]. }
  subst soup. destruct Hin as [<-|[]]. injection Heq as <- <-.
  vm_compute. by eexists.
Qed.

Lemma second_cycle_idempotent_witness :
  table (final (process_articles 1 all_up (final (process_articles 1 all_up initial_state))))
  = table (final (process_articles 1 all_up initial_state)) /\
  since (trace (final (process_articles 1 all_up initial_state))) quiet
    (final (process_articles 1 all_up (final (process_articles 1 all_up initial_state)))).
Proof.
  destruct (second_cycle_idempotent 1 1 all_up initial_state) as [_ H].
  apply H. exact all_up_listing_persisted.
Defined.

(** C7.  Empty-content skip.  When the extraction of a URL gives no title
    (or an empty one), or a title with neither excerpt nor body,
    [process_article] returns [None] having done nothing but the
    extraction.  [get_latest_articles] drops the [None]s: when a URL is
    always extracted that way, no article it returns carries that URL, so
    the orchestrator, which summarizes and publishes the returned
    articles only, never hands it to the summarizer; and a cycle adds to
    the trace no message and no write for that URL. *)
Theorem process_article_skips_empty (w : World) (url : string) :
  (forall article_type st tdp,
     result (extract_content w url st) = Ret tdp ->
     skip tdp ->
     process_article w url article_type st
     = (final (extract_content w url st), Ret None)) /\
  (always_skipped w url ->
   (forall article_type pages st articles,
      result (get_latest_articles w article_type pages st) = Ret articles ->
      Forall (fun a => a_url a <> url) articles) /\
   (forall fuel st,
      since (trace st) (fun e => ~ about url e) (final (process_articles fuel w st)))).
Proof.
  split.
  - intros article_type st [[t d] p] Hex Hskip.
    rewrite (process_article_eq _ _ _ _ _ _ _ Hex). by rewrite skip_test.
  - intros Hsk. split.
    + intros article_type pages st articles Hres.
      apply get_latest_articles_origin in Hres.
      eapply Forall_impl; [exact Hres|]. simpl.
      intros a (u & st' & Ha) Heq.
      apply process_article_some in Ha as (Hu & _ & _ & t & d & p & Hex & Hns & _).
      apply Hns. apply (Hsk st'). congruence.
    + intros fuel st. by apply process_articles_not_about.
Qed.

Lemma blank_site_always_skipped : always_skipped blank_site article_url.
Proof.
  intros st tdp. unfold extract_content, try_except, bind, session_get.
  destruct (session st); simpl.
  - change (site blank_soup (tick st) article_url) with (Ok blank_soup).
    simpl. intros [= <-]. right. split; reflexivity.
  - intros [= <-]. by left.
Qed.

Lemma process_article_skips_empty_witness :
  process_article blank_site article_url "tin-xem-nhieu" online
  = (log (EGet article_url) online, Ret None) /\
  since [] (fun e => ~ about article_url e)
    (final (process_articles 1 blank_site initial_state)).
Proof.
  destruct (process_article_skips_empty blank_site article_url) as [Hfun Hcycle].
  split.
  - rewrite (Hfun "tin-xem-nhieu" online (Some "Tieu de", Some "", Some ""));
      [reflexivity | reflexivity | right; split; reflexivity].
  - destruct (Hcycle blank_site_always_skipped) as [_ Hquiet].
    exact (Hquiet 1 initial_state).
Defined.

(** C8.  Listing totality.  [get_urls_of_type_thread] returns a list from
    every state, for every category and page number: the empty list when
    the page has no headline, and the empty list again when the fetch or
    the parse fails or there is no session.  So [get_latest_articles]
    returns as well, and the cycle goes on with the next page. *)
Theorem get_urls_of_type_thread_total (w : World) (article_type : string)
    (page_number : Z) (st : State) :
  (exists urls,
     result (get_urls_of_type_thread w article_type page_number st) = Ret urls) /\
  (forall soup,
     session st = true ->
     http_get w (tick st) (page_url_of article_type page_number) = Ok soup ->
     title_news soup = [] ->
     get_urls_of_type_thread w article_type page_number st
     = (log (EGet (page_url_of article_type page_number)) st, Ret [])) /\
  (forall e,
     session st = true ->
     http_get w (tick st) (page_url_of article_type page_number) = Fail e ->
     get_urls_of_type_thread w article_type page_number st
     = (log (EGet (page_url_of article_type page_number)) st, Ret [])) /\
  (session st = false ->
   get_urls_of_type_thread w article_type page_number st = (st, Ret [])) /\
  (forall pages,
     exists articles,
       result (get_latest_articles w article_type pages st) = Ret articles).
Proof.
  split; [apply get_urls_returns|].
  unfold get_urls_of_type_thread, try_except, bind, session_get.
  repeat split.
  - intros soup Hs Hget Htn. by rewrite Hs, Hget, Htn.
  - intros e Hs Hget. by rewrite Hs, Hget.
  - intros Hs. by rewrite Hs.
  - intros pages. apply get_latest_articles_returns.
Qed.

Lemma get_urls_of_type_thread_total_witness :
  get_urls_of_type_thread empty_site "tin-nong" 7 online
  = (log (EGet "https://vnexpress.net/tin-nong-p7") online, Ret []) /\
  get_urls_of_type_thread service_down "tin-nong" 7 online
  = (log (EGet "https://vnexpress.net/tin-nong-p7") online, Ret []) /\
  get_urls_of_type_thread empty_site "tin-nong" 7 initial_state
  = (initial_state, Ret []).
Proof.
  split; [|split].
  - destruct (get_urls_of_type_thread_total empty_site "tin-nong" 7 online)
      as (_ & Hempty & _).
    apply (Hempty (mkSoup [] None None [])); reflexivity.
  - destruct (get_urls_of_type_thread_total service_down "tin-nong" 7 online)
      as (_ & _ & Hfail & _).
    apply (Hfail unreachable); reflexivity.
  - destruct (get_urls_of_type_thread_total empty_site "tin-nong" 7 initial_state)
      as (_ & _ & _ & Hnone & _).
    apply Hnone. reflexivity.
Defined.

(** C9.  Every article [process_article] returns has a content that is
    not empty: it is the excerpt, a newline and the body, and one of the
    two is not empty.  So the guard [if article["content"]] of the
    orchestrator holds for it, and the article goes to the summarizer. *)
Theorem process_article_content_nonempty (w : World) (url article_type : string)
    (st : State) (article : Article) :
  result (process_article w url article_type st) = Ret (Some article) ->
  nonempty (a_content article) = true /\
  (exists description paragraphs,
     a_content article = description +:+ nl +:+ paragraphs /\
     (description <> "" \/ paragraphs <> "")) /\
  (forall fuel w',
     handle_article fuel w' article
     = (summary <- summarize fuel w' (a_content article) ;;
        if nonempty summary then
          post_update w' article summary ;;;
          insert_article w' article summary
        else ret tt)).
Proof.
  intros Hres.
  apply process_article_some in Hres
    as (_ & _ & _ & t & d & p & _ & _ & Hcontent & Hdp).
  assert (Hne : nonempty (a_content article) = true).
  { rewrite Hcontent. apply append_nonempty_r, nl_nonempty. }
  split; [exact Hne|]. split.
  - by exists (fmt d), (fmt p).
  - intros fuel w'. unfold handle_article. by rewrite Hne.
Qed.

Lemma process_article_content_nonempty_witness :
  exists article,
    result (process_article all_up article_url "tin-xem-nhieu" online) = Ret (Some article) /\
    a_content article = "Mo ta." +:+ nl +:+ "Doan mot. Doan hai." /\
    nonempty (a_content article) = true.
Proof.
  eexists. split; [reflexivity|]. split; [reflexivity|].
  eapply (process_article_content_nonempty all_up article_url "tin-xem-nhieu" online).
  reflexivity.
Defined.

(** C10.  The cache holds accepted summaries only, in every reachable
    state and after every call of [summarize].  When [summarize] returns
    the empty string, as it does after an error of the generation
    service, nothing is cached for the content, and a later call with the
    same content starts with a new request to the service. *)
Theorem cache_holds_accepted_only (w : World) (text : string) (st : State) (fuel : nat) :
  (forall cycles, cache_valid (final (main cycles initial_state))) /\
  (forall e,
     cache st !! text = None ->
     chat_completions_create w (tick st) (prompt_of text) = Fail e ->
     summarize (S fuel) w text st = (log (EGenerate (prompt_of text)) st, Ret "")) /\
  (cache_valid st ->
   cache_valid (final (summarize fuel w text st)) /\
   (result (summarize fuel w text st) = Ret "" ->
    cache (final (summarize fuel w text st)) !! text = None /\
    forall fuel' w',
      exists newer,
        trace (final (summarize (S fuel') w' text (final (summarize fuel w text st))))
        = newer ++ EGenerate (prompt_of text) :: trace (final (summarize fuel w text st)))).
Proof.
  split; [|split].
  - intros cycles.
    apply (main_keeps cache_valid process_articles_cache_valid cycles initial_state
             initial_cache_valid).
  - intros e Hc Hr. by apply summarize_miss_fail with e.
  - intros Hv. split; [by apply summarize_keeps_cache_valid|].
    intros Hres.
    assert (Hnone : cache (final (summarize fuel w text st)) !! text = None)
      by by apply summarize_empty_uncached.
    split; [exact Hnone|].
    intros fuel' w'. by apply summarize_miss_requests.
Qed.

Lemma cache_holds_accepted_only_witness :
  let failed := summarize 1 service_down "noi dung" initial_state in
  let again := summarize 1 (service_stub (fun _ => Ok five_sentences)) "noi dung" (final failed) in
  result failed = Ret "" /\
  cache (final failed) !! "noi dung" = None /\
  generations (trace (final failed)) = 1 /\
  generations (trace (final again)) = 2 /\
  result again = Ret five_sentences.
Proof.
  cbv zeta.
  destruct (cache_holds_accepted_only service_down "noi dung" initial_state 1)
    as (_ & _ & Hvalid).
  destruct (Hvalid initial_cache_valid) as [_ Hempty].
  destruct (Hempty eq_refl) as [Hnone _].
  split; [reflexivity|]. split; [exact Hnone|]. repeat split.
Defined.

(** * Further properties *)

(** ** The store *)

Lemma is_article_crawled_ok w url st :
  sqlite w (tick st) = Ok tt ->
  result (is_article_crawled w url st) = Ret (bool_decide (is_Some (table st !! url))).
Proof. intros H. unfold is_article_crawled. by rewrite H. Qed.

Lemma insert_article_ok w article summary st :
  sqlite w (tick st) = Ok tt ->
  insert_article w article summary st
  = (log (EInsert (row_of w article summary st) true)
       (set_table (<[a_url article := row_of w article summary st]> (table st)) st),
     Ret tt).
Proof. intros H. by rewrite insert_article_eq, H. Qed.

(** X1.  Insert, then look up: after [insert_article] has written the row
    of an article, [is_article_crawled] answers [True] for its URL, and
    for every other URL it answers what it would have answered before. *)
Theorem insert_then_crawled (w w' : World) (article : Article) (summary : string)
    (st : State) :
  sqlite w (tick st) = Ok tt ->
  sqlite w' (S (tick st)) = Ok tt ->
  result (is_article_crawled w' (a_url article)
            (final (insert_article w article summary st))) = Ret true /\
  forall url,
    url <> a_url article ->
    result (is_article_crawled w' url (final (insert_article w article summary st)))
    = Ret (bool_decide (is_Some (table st !! url))).
Proof.
  intros Hw Hw'. rewrite (insert_article_ok _ _ _ _ Hw). cbn [final fst]. split.
  - rewrite is_article_crawled_ok by exact Hw'. cbn [table log set_table].
    rewrite lookup_insert_eq. by rewrite bool_decide_eq_true_2.
  - intros url Hne. rewrite is_article_crawled_ok by exact Hw'.
    cbn [table log set_table]. by rewrite lookup_insert_ne.
Qed.

Lemma insert_then_crawled_witness :
  result (is_article_crawled all_up article_url initial_state) = Ret false /\
  result (is_article_crawled all_up article_url
            (final (insert_article all_up
                      (mkArticle "Tieu de" "Noi dung" article_url "tin-nong" "2024")
                      five_sentences initial_state))) = Ret true.
Proof.
  split; [reflexivity|].
  apply (insert_then_crawled all_up all_up
           (mkArticle "Tieu de" "Noi dung" article_url "tin-nong" "2024")
           five_sentences initial_state); reflexivity.
Defined.

(** X2.  [insert_article] is an upsert: a second write for the same URL
    adds no key, and the row of the URL is the one of the second write. *)
Theorem insert_article_upsert (w1 w2 : World) (a1 a2 : Article) (s1 s2 : string)
    (st : State) :
  a_url a1 = a_url a2 ->
  sqlite w1 (tick st) = Ok tt ->
  sqlite w2 (S (tick st)) = Ok tt ->
  let st1 := final (insert_article w1 a1 s1 st) in
  let st2 := final (insert_article w2 a2 s2 st1) in
  dom (table st2) = dom (table st1) /\
  table st2 = <[a_url a2 := row_of w2 a2 s2 st1]> (table st) /\
  exists r, table st2 !! a_url a1 = Some r /\
            r_summary r = s2 /\ r_title r = a_title a2.
Proof.
  intros Hu H1 H2. cbv zeta.
  rewrite (insert_article_ok w1 _ _ _ H1). cbn [final fst].
  rewrite (insert_article_ok w2) by exact H2.
  cbn [final fst table log set_table]. rewrite Hu. split; [|split].
  - rewrite insert_insert_eq. by rewrite !dom_insert_L.
  - by rewrite insert_insert_eq.
  - eexists. rewrite lookup_insert_eq. by split.
Qed.

Lemma insert_article_upsert_witness :
  let a := mkArticle "Tieu de" "Noi dung" article_url "tin-nong" "2024" in
  let st1 := final (insert_article all_up a two_sentences initial_state) in
  let st2 := final (insert_article all_up a five_sentences st1) in
  dom (table st2) = dom (table st1) /\
  exists r, table st2 !! article_url = Some r /\ r_summary r = five_sentences.
Proof.
  cbv zeta.
  destruct (insert_article_upsert all_up all_up
              (mkArticle "Tieu de" "Noi dung" article_url "tin-nong" "2024")
              (mkArticle "Tieu de" "Noi dung" article_url "tin-nong" "2024")
              two_sentences five_sentences initial_state eq_refl eq_refl eq_refl)
    as (Hdom & _ & r & Hr & Hs & _).
  split; [exact Hdom|]. exists r. by split.
Defined.

Lemma handle_article_dom w fuel article st :
  dom (table st) ⊆ dom (table (final (handle_article fuel w article st))).
Proof.
  destruct (handle_article_trace w fuel article st)
    as (_ & _ & n & [[Ht _] | (s & r & ok & sent & _ & _ & _ & _ & _ & Ht)]).
  - by rewrite Ht.
  - rewrite Ht. destruct ok; [|done]. rewrite dom_insert_L. apply union_subseteq_r.
Qed.

(** X3.  The store only grows: no cycle, and no run of the loop, removes
    the row of a URL. *)
Theorem store_only_grows (cycles : list (nat * World)) (st : State) :
  dom (table st) ⊆ dom (table (final (main cycles st))).
Proof.
  apply (main_keeps (fun s => dom (table st) ⊆ dom (table s))); [|done].
  intros fuel w. apply process_articles_keeps.
  - by intros s b H.
  - by intros s H.
  - by intros s ok H.
  - intros fuel' category _. apply handle_category_keeps.
    + intros s s' (Ht & _) H. by rewrite Ht.
    + intros f c a s _ H. etrans; [exact H | apply handle_article_dom].
Qed.

(** ** The outcome of a cycle *)

Lemma session_kept_by_category w fuel category :
  respects (keeps (fun s => session s = true)) (handle_category fuel w category).
Proof.
  apply handle_category_keeps.
  - intros s s' (_ & _ & Hs & _) H. by rewrite Hs.
  - intros f c a s _ H.
    destruct (handle_article_trace w f a s) as (Hs & _). by rewrite Hs.
Qed.

Lemma cycle_body_session w fuel :
  respects (keeps (fun s => session s = true))
    (try_except (for_each (values article_type_dict) (handle_category fuel w))
       (fun e => ret tt)).
Proof.
  apply (respects_try_except (keeps (fun s => session s = true))).
  - apply (respects_for_each (keeps (fun s => session s = true))).
    intros c. apply session_kept_by_category.
  - intros e. apply (respects_ret (keeps (fun s => session s = true))).
Qed.

Lemma swallowed_result (body : M unit) st :
  result (try_except body (fun e => ret tt) st) = Ret tt.
Proof.
  unfold try_except. by destruct (body st) as [s [[]|e]].
Qed.

(** X4.  A cycle raises only when the table cannot be created, and then
    it has done nothing else.  Otherwise whatever fails inside is
    swallowed: the cycle returns, with the session closed. *)
Theorem process_articles_outcome (fuel : nat) (w : World) (st : State) :
  (forall e,
     sqlite w (tick st) = Fail e ->
     process_articles fuel w st
     = (log (ECreate false) (set_session false (set_cache ∅ st)), Raise e)) /\
  (sqlite w (tick st) = Ok tt ->
   result (process_articles fuel w st) = Ret tt /\
   session (final (process_articles fuel w st)) = false).
Proof.
  split.
  - intros e He. unfold process_articles, bind, create_table.
    change (tick (set_session false (set_cache ∅ st))) with (tick st).
    by rewrite He.
  - intros Hok.
    set (s1 := set_session true
                 (log (ECreate true) (set_session false (set_cache ∅ st)))).
    assert (Heq : process_articles fuel w st
                  = try_finally
                      (try_except
                         (for_each (values article_type_dict) (handle_category fuel w))
                         (fun e => ret tt))
                      close_session s1).
    { unfold process_articles, bind, create_table, create_session.
      change (tick (set_session false (set_cache ∅ st))) with (tick st).
      by rewrite Hok. }
    rewrite Heq. clear Heq.
    pose proof (cycle_body_session w fuel s1 eq_refl) as Hsess.
    pose proof (swallowed_result
                  (for_each (values article_type_dict) (handle_category fuel w)) s1)
      as Hres.
    unfold try_finally.
    destruct (try_except (for_each (values article_type_dict) (handle_category fuel w))
                (fun e => ret tt) s1) as [s2 r].
    simpl in Hsess, Hres. subst r.
    unfold close_session. rewrite Hsess. simpl. by split.
Qed.

Lemma process_articles_outcome_witness :
  process_articles 1 service_down initial_state
  = (log (ECreate false) initial_state, Raise unreachable) /\
  result (process_articles 1 telegram_down initial_state) = Ret tt /\
  session (final (process_articles 1 telegram_down initial_state)) = false.
Proof.
  split.
  - destruct (process_articles_outcome 1 service_down initial_state) as [Hfail _].
    apply (Hfail unreachable). reflexivity.
  - destruct (process_articles_outcome 1 telegram_down initial_state) as [_ Hok].
    exact (Hok eq_refl).
Defined.

(** *** A refused write is the last thing a cycle does *)

Lemma clean_app new1 new2 : clean new1 -> clean new2 -> clean (new1 ++ new2).
Proof. intros H1 H2. apply Forall_app. by split. Qed.

Lemma stops_ret {A} (a : A) st : stops_at_failed_write st (ret a st).
Proof. exists []. split; [reflexivity | left; constructor]. Qed.

Lemma stops_bind {A B} (m : M A) (f : A -> M B) :
  (forall st, stops_at_failed_write st (m st)) ->
  (forall a st, stops_at_failed_write st (f a st)) ->
  forall st, stops_at_failed_write st (bind m f st).
Proof.
  intros Hm Hf st. unfold bind. specialize (Hm st).
  destruct (m st) as [st1 [a|e]].
  - destruct Hm as (new1 & Ht1 & [Hc1 | (r & older & e & _ & _ & Hr)]);
      [|discriminate].
    simpl in Ht1. destruct (Hf a st1) as (new2 & Ht2 & Hcase).
    exists (new2 ++ new1). split; [by rewrite Ht2, Ht1, app_assoc|].
    destruct Hcase as [Hc2 | (r & older & e & -> & Hco & Hr)].
    + left. by apply clean_app.
    + right. exists r, (older ++ new1), e. repeat split; [|exact Hr].
      by apply clean_app.
  - destruct Hm as (new1 & Ht1 & Hcase). exists new1. split; [exact Ht1|].
    destruct Hcase as [Hc1 | (r & older & e' & -> & Hco & _)]; [by left|].
    right. by exists r, older, e.
Qed.

Lemma stops_for_each {A} (l : list A) (body : A -> M unit) :
  (forall x st, stops_at_failed_write st (body x st)) ->
  forall st, stops_at_failed_write st (for_each l body st).
Proof.
  intros Hb. induction l as [|x l IH]; simpl.
  - apply stops_ret.
  - apply stops_bind; [apply Hb | intros _; exact IH].
Qed.

Lemma stops_of_crawl {A} (m : M A) st :
  crawl_step st (final (m st)) -> stops_at_failed_write st (m st).
Proof.
  intros (_ & _ & _ & new & Hn & HF). exists new. split; [exact Hn|]. left.
  eapply Forall_impl; [exact HF|]. intros e He Hf. by destruct e.
Qed.

Lemma clean_generated p n : clean (repeat (EGenerate p) n).
Proof. induction n; simpl; constructor; auto. Qed.

Lemma stops_handle_article w fuel article st :
  stops_at_failed_write st (handle_article fuel w article st).
Proof.
  rewrite handle_article_eq.
  destruct (nonempty (a_content article)); [|apply stops_ret].
  destruct (summarize_frame w (a_content article) fuel st) as (_ & _ & n & Hn).
  cbv zeta in Hn.
  destruct (summarize fuel w (a_content article) st) as [st1 r]. simpl in Hn.
  assert (Hplain : forall r' : res unit, stops_at_failed_write st (st1, r')).
  { intros r'. exists (repeat (EGenerate (prompt_of (a_content article))) n).
    split; [exact Hn | left; apply clean_generated]. }
  destruct r as [summary|e]; [|apply Hplain].
  destruct (nonempty summary); [|apply Hplain].
  rewrite insert_article_eq.
  set (st2 := log _ st1).
  destruct (sqlite w (tick st2)) as [[]|e].
  - eexists (_ :: _ :: repeat (EGenerate (prompt_of (a_content article))) n).
    split; [simpl; by rewrite Hn|]. left.
    constructor; [by intros []|]. constructor; [by intros []|]. apply clean_generated.
  - eexists (_ :: _ :: repeat (EGenerate (prompt_of (a_content article))) n).
    split; [simpl; by rewrite Hn|]. right.
    eexists _, _, e. repeat split.
    constructor; [by intros []|]. apply clean_generated.
Qed.

Lemma stops_handle_category w fuel category st :
  stops_at_failed_write st (handle_category fuel w category st).
Proof.
  revert st. unfold handle_category. apply stops_bind.
  - intros st. apply stops_of_crawl, get_latest_articles_crawl.
  - intros articles. apply stops_for_each. intros a. apply stops_handle_article.
Qed.

(** X5.  When the database refuses a write, the cycle ends there: in the
    events a cycle adds to the trace, a refused [insert_article] can only
    be the newest one.  No request, message or write follows it. *)
Theorem failed_write_ends_cycle (fuel : nat) (w : World) (st : State) :
  exists new,
    trace (final (process_articles fuel w st)) = new ++ trace st /\
    (Forall (fun e => ~ failed_write e) new \/
     exists r older,
       new = EInsert r false :: older /\
       Forall (fun e => ~ failed_write e) older).
Proof.
  unfold process_articles.
  set (st0 := set_session false (set_cache ∅ st)).
  unfold bind at 1, create_table.
  destruct (sqlite w (tick st0)) as [[]|e].
  2:{ exists [ECreate false]. split; [reflexivity|]. left.
      constructor; [by intros []|constructor]. }
  unfold bind at 1, create_session.
  set (s1 := set_session true (log (ECreate true) st0)).
  pose proof (stops_for_each (values article_type_dict) (handle_category fuel w)
                (stops_handle_category w fuel) s1) as (new & Ht & Hcase).
  assert (Htr : trace (final (try_finally
                  (try_except (for_each (values article_type_dict) (handle_category fuel w))
                     (fun e => ret tt)) close_session s1))
                = trace (final (for_each (values article_type_dict)
                                  (handle_category fuel w) s1))).
  { unfold try_finally, try_except, close_session.
    destruct (for_each (values article_type_dict) (handle_category fuel w) s1)
      as [s2 [[]|e]]; simpl; try reflexivity; by destruct (session s2). }
  rewrite Htr, Ht.
  exists (new ++ [ECreate true]). split; [by rewrite <- app_assoc|].
  assert (Hc : clean [ECreate true]) by (constructor; [by intros []|constructor]).
  destruct Hcase as [Hn | (r & older & e & -> & Ho & _)].
  - left. by apply clean_app.
  - right. exists r, (older ++ [ECreate true]). split; [reflexivity|].
    by apply clean_app.
Qed.

(** ** Discovery *)

Section Discovery.
Variable w : World.

(** A normal return of the loop is the accumulator followed by the first
    links that have no row, in the order of the page. *)
Lemma collect_urls_returned titles acc st urls :
  result (collect_urls w titles acc st) = Ret urls ->
  exists links,
    first_links titles = Some links /\
    urls = acc ++ List.filter (unseen (table st)) links.
Proof.
  revert acc st. induction titles as [|title titles IH]; intros acc st; simpl.
  - intros [= <-]. exists []. by rewrite app_nil_r.
  - destruct title as [|url rest]; [discriminate|].
    unfold bind, is_article_crawled.
    destruct (sqlite w (tick st)) as [[]|e]; simpl; [|discriminate].
    intros Hres. apply IH in Hres as (links & -> & ->). simpl.
    exists (url :: links). split; [reflexivity|].
    simpl. unfold unseen at 2.
    destruct (negb (bool_decide (is_Some (table st !! url)))); simpl;
      [by rewrite <- app_assoc | reflexivity].
Qed.

Lemma collect_urls_answered titles acc st links :
  (forall n, sqlite w n = Ok tt) ->
  first_links titles = Some links ->
  result (collect_urls w titles acc st)
  = Ret (acc ++ List.filter (unseen (table st)) links).
Proof.
  intros Hdb. revert acc st links.
  induction titles as [|title titles IH]; intros acc st links; simpl.
  - intros [= <-]. by rewrite app_nil_r.
  - destruct title as [|url rest]; [discriminate|].
    destruct (first_links titles) as [links'|] eqn:Hl; [|discriminate].
    intros [= <-]. unfold bind, is_article_crawled. rewrite Hdb. simpl.
    rewrite (IH _ _ links' eq_refl). simpl. unfold unseen at 2.
    destruct (negb (bool_decide (is_Some (table st !! url)))); simpl;
      [by rewrite <- app_assoc | reflexivity].
Qed.

Lemma collect_urls_no_link titles acc st :
  first_links titles = None ->
  exists e, result (collect_urls w titles acc st) = Raise e.
Proof.
  revert acc st. induction titles as [|title titles IH]; intros acc st; simpl.
  - discriminate.
  - destruct title as [|url rest]; [intros _; by eexists|].
    destruct (first_links titles) as [links'|] eqn:Hl; [discriminate|].
    intros _. unfold bind, is_article_crawled.
    destruct (sqlite w (tick st)) as [[]|e]; simpl; [|by eexists].
    by apply IH.
Qed.
End Discovery.

(** X6.  What a listing page yields.  With a session and a page that was
    fetched, [get_urls_of_type_thread] returns either nothing or exactly
    the first links of the headlines that have no row, in the order of
    the page.  It returns the latter when every headline has a link and
    every look-up is answered; one headline without a link discards the
    whole page. *)
Theorem get_urls_of_type_thread_exact (w : World) (article_type : string)
    (page_number : Z) (st : State) (soup : Soup) :
  session st = true ->
  http_get w (tick st) (page_url_of article_type page_number) = Ok soup ->
  (forall urls,
     result (get_urls_of_type_thread w article_type page_number st) = Ret urls ->
     urls = [] \/
     exists links,
       first_links (title_news soup) = Some links /\
       urls = List.filter (unseen (table st)) links) /\
  (forall links,
     first_links (title_news soup) = Some links ->
     (forall n, sqlite w n = Ok tt) ->
     result (get_urls_of_type_thread w article_type page_number st)
     = Ret (List.filter (unseen (table st)) links)) /\
  (first_links (title_news soup) = None ->
   result (get_urls_of_type_thread w article_type page_number st) = Ret []).
Proof.
  intros Hs Hget.
  unfold get_urls_of_type_thread, try_except, bind, session_get.
  rewrite Hs, Hget.
  set (st1 := log (EGet (page_url_of article_type page_number)) st).
  destruct (title_news soup) as [|t ts] eqn:Htn.
  { simpl. split; [|split].
    - intros urls [= <-]. by left.
    - by intros links [= <-] _.
    - discriminate. }
  cbv beta iota. split; [|split].
  - intros urls.
    destruct (collect_urls w (t :: ts) [] st1) as [s2 [l|e]] eqn:Hc; simpl.
    + intros [= <-]. right.
      apply (collect_urls_returned w (t :: ts) [] st1). by rewrite Hc.
    + intros [= <-]. by left.
  - intros links Hl Hdb.
    pose proof (collect_urls_answered w (t :: ts) [] st1 links Hdb Hl) as Hr.
    destruct (collect_urls w (t :: ts) [] st1) as [s2 r]. simpl in Hr. by subst r.
  - intros Hl.
    destruct (collect_urls_no_link w (t :: ts) [] st1 Hl) as [e Hr].
    destruct (collect_urls w (t :: ts) [] st1) as [s2 r]. simpl in Hr. by subst r.
Qed.

Lemma get_urls_of_type_thread_exact_witness :
  result (get_urls_of_type_thread all_up "tin-xem-nhieu" 1 online) = Ret [article_url] /\
  result (get_urls_of_type_thread all_up "tin-xem-nhieu" 1
            (set_session true (final (process_articles 1 all_up initial_state))))
  = Ret [].
Proof.
  split.
  - destruct (get_urls_of_type_thread_exact all_up "tin-xem-nhieu" 1 online listing_soup
                eq_refl eq_refl) as (_ & Hall & _).
    apply (Hall [article_url] eq_refl). reflexivity.
  - destruct (get_urls_of_type_thread_exact all_up "tin-xem-nhieu" 1
                (set_session true (final (process_articles 1 all_up initial_state)))
                listing_soup eq_refl eq_refl) as (_ & Hall & _).
    rewrite (Hall [article_url] eq_refl (fun n => eq_refl)).
    vm_compute. reflexivity.
Defined.

(** *** What [get_latest_articles] returns *)

Section Latest.
Variable w : World.

Lemma map_m_origin_in {A B} (f : A -> M B) (R : relation State) `{!PreOrder R}
    (l : list A) st ys :
  (forall x, respects R (f x)) ->
  result (map_m f l st) = Ret ys ->
  Forall (fun y => exists x st', In x l /\ R st st' /\ result (f x st') = Ret y) ys.
Proof.
  intros HR. revert st ys. induction l as [|x l IH]; intros st ys; simpl.
  - intros [= <-]. constructor.
  - unfold bind at 1. pose proof (HR x st) as Hstep.
    destruct (f x st) as [st1 [y|e]] eqn:Hfx; simpl; try discriminate.
    unfold bind. destruct (map_m f l st1) as [st2 [ys'|e]] eqn:Hrest; simpl;
      try discriminate.
    intros [= <-]. simpl in Hstep. constructor.
    + exists x, st. repeat split; [by left | reflexivity | by rewrite Hfx].
    + assert (Hres : result (map_m f l st1) = Ret ys') by by rewrite Hrest.
      apply IH in Hres. eapply Forall_impl; [exact Hres|]. simpl.
      intros y' (x' & st' & Hin & HRst & Hy). exists x', st'.
      repeat split; [by right | by etrans | exact Hy].
Qed.

Lemma process_article_some_content url article_type st a :
  result (process_article w url article_type st) = Ret (Some a) ->
  nonempty (a_content a) = true.
Proof.
  intros H. apply process_article_some in H as (_ & _ & _ & t & d & p & _ & _ & -> & _).
  apply append_nonempty_r, nl_nonempty.
Qed.

Lemma pages_loop_fresh article_type pages acc st found :
  Forall (fresh_article article_type (table st)) acc ->
  result (pages_loop w article_type pages acc st) = Ret found ->
  Forall (fresh_article article_type (table st)) found.
Proof.
  revert acc st. induction pages as [|page pages IH]; intros acc st Hacc; simpl.
  - by intros [= <-].
  - unfold bind at 1.
    pose proof (get_urls_crawl w article_type page st) as (Ht1 & _).
    pose proof (get_urls_unseen w article_type page st) as Hunseen.
    destruct (get_urls_of_type_thread w article_type page st) as [st1 [urls|e]];
      simpl; try discriminate.
    simpl in Ht1. specialize (Hunseen urls eq_refl).
    unfold bind at 1.
    pose proof (respects_map_m crawl_step
                  (fun url => process_article w url article_type) urls
                  (fun url => process_article_crawl w url article_type) st1)
      as (Ht2 & _).
    destruct (map_m (fun url => process_article w url article_type) urls st1)
      as [st2 [gathered|e]] eqn:Hg; simpl; try discriminate.
    simpl in Ht2. intros Hres.
    assert (Htbl : table st2 = table st) by congruence.
    rewrite <- Htbl. apply (IH (acc ++ gathered) st2); [|exact Hres].
    rewrite Htbl. apply Forall_app. split; [exact Hacc|].
    assert (Hr : result (map_m (fun url => process_article w url article_type) urls st1)
                 = Ret gathered) by by rewrite Hg.
    apply (map_m_origin_in _ crawl_step) in Hr;
      [|intros url; apply process_article_crawl].
    eapply Forall_impl; [exact Hr|]. simpl.
    intros o (url & st' & Hin & _ & Ho) a ->.
    pose proof (process_article_some_content _ _ _ _ Ho) as Hne.
    apply process_article_some in Ho as (Hu & Hc & Hti & _).
    repeat split; [exact Hc | exact Hti | exact Hne |].
    rewrite Hu. by apply Hunseen.
Qed.
End Latest.

(** X7.  What [get_latest_articles] returns: every article carries the
    category that was asked for, a title and a content that are not
    empty, and a URL that has no row in the store. *)
Theorem get_latest_articles_fresh (w : World) (article_type : string) (pages : Z)
    (st : State) (articles : list Article) :
  result (get_latest_articles w article_type pages st) = Ret articles ->
  Forall (fun a =>
            a_category a = article_type /\ a_title a <> "" /\
            nonempty (a_content a) = true /\ table st !! a_url a = None)
         articles.
Proof.
  unfold get_latest_articles, bind.
  destruct (pages_loop w article_type (range 1 (pages + 1)) [] st)
    as [st1 [found|e]] eqn:Hloop; simpl; try discriminate.
  intros [= <-].
  assert (Hf : Forall (fresh_article article_type (table st)) found).
  { apply (pages_loop_fresh w article_type (range 1 (pages + 1)) [] st);
      [constructor | by rewrite Hloop]. }
  clear Hloop. induction Hf as [|o found Ho Hf IH]; simpl; [constructor|].
  destruct o as [a|]; simpl; [constructor; auto | exact IH].
Qed.

Lemma get_latest_articles_fresh_witness :
  exists a,
    result (get_latest_articles all_up "tin-xem-nhieu" 2 online) = Ret [a] /\
    a_url a = article_url /\ a_title a = "Tieu de" /\
    table online !! a_url a = None.
Proof.
  eexists. split; [vm_compute; reflexivity|].
  split; [reflexivity|]. split; [reflexivity|].
  pose proof (get_latest_articles_fresh all_up "tin-xem-nhieu" 2 online _ eq_refl) as H.
  apply Forall_inv in H. apply H.
Defined.

(** ** The gate *)

Section Occurrences.
Variable c : ascii.

(** Occurrences of [c] in a list of characters. *)
Let occ (l : list ascii) : nat := occurrences c (string_of_list_ascii l).

Lemma occ_cons a l : occ (a :: l) = (if Ascii.eqb a c then 1 else 0) + occ l.
Proof. reflexivity. Qed.

Lemma occ_app l1 l2 : occ (l1 ++ l2) = occ l1 + occ l2.
Proof.
  induction l1 as [|a l1 IH]; [reflexivity|].
  change ((a :: l1) ++ l2) with (a :: (l1 ++ l2)). rewrite !occ_cons, IH. lia.
Qed.

Lemma occ_rev l : occ (rev l) = occ l.
Proof.
  induction l as [|a l IH]; [reflexivity|].
  simpl rev. rewrite occ_app, IH, !occ_cons. unfold occ at 2. simpl. lia.
Qed.

Lemma occurrences_list s : occurrences c s = occ (list_ascii_of_string s).
Proof. unfold occ. by rewrite string_of_list_ascii_of_string. Qed.

Lemma drop_prefix_app p s r : drop_prefix p s = Some r -> s = p ++ r.
Proof.
  revert s. induction p as [|a p IH]; intros s; simpl.
  - by intros [= ->].
  - destruct s as [|b s]; [discriminate|].
    destruct (Ascii.eqb a b) eqn:Hab; [|discriminate].
    apply Ascii.eqb_eq in Hab as ->. intros H. by rewrite (IH _ H).
Qed.

Lemma drop_any_app ws s r :
  drop_any ws s = Some r -> exists t, In t ws /\ s = t ++ r.
Proof.
  induction ws as [|t ws IH]; simpl; [discriminate|].
  destruct (drop_prefix t s) as [r'|] eqn:Hd.
  - intros [= <-]. exists t. split; [by left | by apply drop_prefix_app].
  - intros H. destruct (IH H) as (t' & Hin & Heq). exists t'. split; [by right|done].
Qed.

(** Removing tokens without [c] keeps the occurrences of [c]. *)
Lemma lstrip_with_occ ws n s :
  (forall t, In t ws -> occ t = 0) -> occ (lstrip_with ws n s) = occ s.
Proof.
  intros Hws. revert s. induction n as [|n IH]; intros s; simpl; [reflexivity|].
  destruct (drop_any ws s) as [r|] eqn:Hd; [|reflexivity].
  apply drop_any_app in Hd as (t & Hin & ->).
  rewrite IH, occ_app, (Hws t Hin). reflexivity.
Qed.

Lemma split_length s : List.length (split c s) = S (occurrences c s).
Proof.
  induction s as [|a s IH]; simpl; [reflexivity|].
  destruct (Ascii.eqb a c); simpl; [by rewrite IH|].
  destruct (split c s); simpl in *; [discriminate | exact IH].
Qed.
End Occurrences.

Lemma whitespace_without_full_stop t :
  In t ws_front \/ In t ws_back -> occurrences "." (string_of_list_ascii t) = 0.
Proof.
  assert (Hall : forallb (fun t => Nat.eqb (occurrences "." (string_of_list_ascii t)) 0)
                   (ws_front ++ ws_back) = true) by reflexivity.
  rewrite forallb_forall in Hall. intros Hin.
  apply Nat.eqb_eq, Hall, in_or_app. exact Hin.
Qed.

(** [strip] removes no full stop. *)
Lemma strip_full_stops s : occurrences "." (strip s) = occurrences "." s.
Proof.
  unfold strip.
  rewrite (occurrences_list "." s).
  rewrite occ_rev, lstrip_with_occ, occ_rev, lstrip_with_occ; [reflexivity| |].
  - intros t Hin. apply whitespace_without_full_stop. by left.
  - intros t Hin. apply whitespace_without_full_stop. by right.
Qed.

Lemma too_short_full_stops s : too_short s = true <-> occurrences "." s < 3.
Proof. unfold too_short. rewrite Nat.ltb_lt, split_length. lia. Qed.

Lemma accepted_full_stops s : too_short s = false <-> 3 <= occurrences "." s.
Proof. unfold too_short. rewrite Nat.ltb_ge, split_length. lia. Qed.

(** X8.  What the gate counts: a result of the generation service is
    accepted exactly when it contains at least three full stops, wherever
    they stand and whatever white space surrounds it; with fewer the
    request is made again.  So three sentences that each end in a full
    stop pass. *)
Theorem gate_counts_full_stops (w : World) (text : string) (st : State)
    (fuel : nat) (content : string) :
  cache st !! text = None ->
  chat_completions_create w (tick st) (prompt_of text) = Ok content ->
  (3 <= occurrences "." content ->
   summarize (S fuel) w text st
   = (set_cache (<[text := strip content]> (cache st))
        (log (EGenerate (prompt_of text)) st), Ret (strip content))) /\
  (occurrences "." content < 3 ->
   summarize (S fuel) w text st
   = summarize fuel w text (log (EGenerate (prompt_of text)) st)).
Proof.
  intros Hc Hr. split; intros Hn.
  - apply (summarize_miss_accept _ _ _ _ _ Hc Hr).
    apply accepted_full_stops. by rewrite strip_full_stops.
  - apply (summarize_miss_short _ _ _ _ _ Hc Hr).
    apply too_short_full_stops. by rewrite strip_full_stops.
Qed.

Lemma gate_counts_full_stops_witness :
  result (summarize 1 (service_stub (fun _ => Ok " Mot. Hai. Ba. ")) "noi dung" initial_state)
  = Ret "Mot. Hai. Ba.".
Proof.
  destruct (gate_counts_full_stops (service_stub (fun _ => Ok " Mot. Hai. Ba. "))
              "noi dung" initial_state 0 " Mot. Hai. Ba. " eq_refl eq_refl)
    as [Hacc _].
  rewrite Hacc; [reflexivity|]. vm_compute. lia.
Defined.

(** *** Summaries that reach the store *)

(** From a valid cache, [summarize] returns the empty string or a
    summary that passed the gate. *)
Lemma summarize_result_valid w text fuel st summary :
  cache_valid st ->
  result (summarize fuel w text st) = Ret summary ->
  summary = "" \/ too_short summary = false.
Proof.
  revert st. induction fuel as [|fuel IH]; intros st Hv Hres.
  - destruct (cache st !! text) as [c|] eqn:Hc.
    + rewrite (summarize_hit _ _ _ _ _ Hc) in Hres. injection Hres as <-.
      right. by eapply Hv.
    + rewrite (summarize_at_limit _ _ _ Hc) in Hres. injection Hres as <-. by left.
  - destruct (cache st !! text) as [c|] eqn:Hc.
    { rewrite (summarize_hit _ _ _ _ _ Hc) in Hres. injection Hres as <-.
      right. by eapply Hv. }
    destruct (chat_completions_create w (tick st) (prompt_of text)) as [content|e] eqn:Hr.
    + destruct (too_short (strip content)) eqn:Hs.
      * rewrite (summarize_miss_short _ _ _ _ _ Hc Hr Hs) in Hres.
        by apply (IH (log (EGenerate (prompt_of text)) st)).
      * rewrite (summarize_miss_accept _ _ _ _ _ Hc Hr Hs) in Hres.
        injection Hres as <-. by right.
    + rewrite (summarize_miss_fail _ _ _ _ _ Hc Hr) in Hres.
      injection Hres as <-. by left.
Qed.

Lemma accepted_handle w fuel article st :
  cache_valid st /\ rows_accepted st ->
  cache_valid (final (handle_article fuel w article st)) /\
  rows_accepted (final (handle_article fuel w article st)).
Proof.
  intros [Hv Hrows]. split; [by apply cache_valid_handle|].
  destruct (handle_article_trace w fuel article st)
    as (_ & _ & n & [[Ht _] | (s & r & ok & sent & Hres & Hne & _ & Hs & _ & Ht)]).
  - intros url r. rewrite Ht. apply Hrows.
  - intros url r'. rewrite Ht. destruct ok; [|apply Hrows].
    rewrite lookup_insert. case_decide; [|apply Hrows].
    intros [= <-]. rewrite Hs.
    by destruct (summarize_result_valid _ _ _ _ _ Hv Hres).
Qed.

(** X9.  Every summary in the store passed the gate: in every reachable
    state each row's summary contains at least three full stops. *)
Theorem persisted_summaries_accepted (cycles : list (nat * World)) (url : string)
    (r : Row) :
  table (final (main cycles initial_state)) !! url = Some r ->
  3 <= occurrences "." (r_summary r).
Proof.
  intros Hr. apply accepted_full_stops.
  assert (Hinv : cache_valid (final (main cycles initial_state)) /\
                 rows_accepted (final (main cycles initial_state))).
  { apply (main_keeps (fun s => cache_valid s /\ rows_accepted s)).
    - intros fuel w. apply process_articles_keeps.
      + by intros s b H.
      + intros s [_ Hrows]. split; [|exact Hrows].
        intros k v H. cbn [cache set_cache] in H. by rewrite lookup_empty in H.
      + by intros s ok H.
      + intros fuel' category _. apply handle_category_keeps.
        * intros s s' (Ht & Hc & _) [Hv Hrows]. split.
          -- intros k v. rewrite Hc. apply Hv.
          -- intros u r'. rewrite Ht. apply Hrows.
        * intros f c a s _. apply accepted_handle.
    - split; [apply initial_cache_valid|].
      intros u r' H. cbn [table initial_state] in H. by rewrite lookup_empty in H. }
  destruct Hinv as [_ Hrows]. by eapply Hrows.
Qed.

Lemma persisted_summaries_accepted_witness :
  3 <= occurrences "." (r_summary article_row).
Proof.
  apply (persisted_summaries_accepted [(1, all_up)] article_url article_row).
  vm_compute. reflexivity.
Defined.

(** X10.  The cache is keyed on the exact content: a call of [summarize]
    changes nothing that is cached for another content, and never
    replaces a summary that is already cached. *)
Theorem summarize_cache_local (w : World) (text : string) (st : State) (fuel : nat) :
  (forall other,
     other <> text ->
     cache (final (summarize fuel w text st)) !! other = cache st !! other) /\
  (forall key cached,
     cache st !! key = Some cached ->
     cache (final (summarize fuel w text st)) !! key = Some cached).
Proof.
  assert (Hother : forall other, other <> text ->
            cache (final (summarize fuel w text st)) !! other = cache st !! other).
  { revert st. induction fuel as [|fuel IH]; intros st other Hne.
    - simpl. by destruct (cache st !! text).
    - destruct (cache st !! text) as [c|] eqn:Hc.
      { by rewrite (summarize_hit _ _ _ _ _ Hc). }
      destruct (chat_completions_create w (tick st) (prompt_of text))
        as [content|e] eqn:Hr.
      + destruct (too_short (strip content)) eqn:Hs.
        * rewrite (summarize_miss_short _ _ _ _ _ Hc Hr Hs).
          by rewrite IH.
        * rewrite (summarize_miss_accept _ _ _ _ _ Hc Hr Hs). simpl.
          by rewrite lookup_insert_ne.
      + by rewrite (summarize_miss_fail _ _ _ _ _ Hc Hr). }
  split; [exact Hother|].
  intros key cached Hk. destruct (decide (key = text)) as [->|Hne].
  - by rewrite (summarize_hit _ _ _ _ _ Hk).
  - by rewrite Hother.
Qed.

Lemma summarize_cache_local_witness :
  let st := final (summarize 1 (service_stub (fun _ => Ok five_sentences)) "bai mot"
                     initial_state) in
  cache (final (summarize 1 always_short "bai hai" st)) !! "bai mot" = Some five_sentences.
Proof.
  cbv zeta.
  destruct (summarize_cache_local always_short "bai hai"
              (final (summarize 1 (service_stub (fun _ => Ok five_sentences)) "bai mot"
                        initial_state)) 1) as [_ Hkeep].
  apply Hkeep. vm_compute. reflexivity.
Defined.

(** X11.  An article whose summary comes back empty is neither published
    nor persisted: [handle_article] stops after [summarize], the table
    is as before, so the URL stays without a row for a later cycle, and
    only requests to the generation service were added to the trace. *)
Theorem empty_summary_skips_article (w : World) (fuel : nat) (article : Article)
    (st : State) :
  result (summarize fuel w (a_content article) st) = Ret "" ->
  handle_article fuel w article st
  = (if nonempty (a_content article)
     then final (summarize fuel w (a_content article) st) else st, Ret tt) /\
  table (final (handle_article fuel w article st)) = table st /\
  exists n,
    trace (final (handle_article fuel w article st))
    = repeat (EGenerate (prompt_of (a_content article))) n ++ trace st.
Proof.
  intros Hres. rewrite handle_article_eq.
  destruct (nonempty (a_content article)).
  2:{ simpl. repeat split. by exists 0. }
  destruct (summarize_frame w (a_content article) fuel st) as (Ht & _ & n & Hn).
  cbv zeta in Ht, Hn.
  destruct (summarize fuel w (a_content article) st) as [st1 r].
  simpl in Hres, Ht, Hn. subst r. simpl. repeat split; [exact Ht|].
  by exists n.
Qed.

Lemma empty_summary_skips_article_witness :
  let a := mkArticle "Tieu de" "Noi dung" article_url "tin-nong" "2024" in
  handle_article 1 service_down a initial_state
  = (log (EGenerate (prompt_of "Noi dung")) initial_state, Ret tt).
Proof.
  cbv zeta.
  destruct (empty_summary_skips_article service_down 1
              (mkArticle "Tieu de" "Noi dung" article_url "tin-nong" "2024")
              initial_state eq_refl) as [Heq _].
  rewrite Heq. reflexivity.
Defined.

(** ** The first version of the summarizer *)








(** ** Start-up *)

Lemma filter_nil_iff {A} (f : A -> bool) (l : list A) :
  List.filter f l = [] <-> forall x, In x l -> f x = false.
Proof.
  induction l as [|a l IH]; simpl.
  - split; [by intros _ x [] | done].
  - destruct (f a) eqn:Hfa.
    + split; [discriminate|]. intros H. specialize (H a (or_introl eq_refl)). congruence.
    + rewrite IH. split.
      * intros H x [<-|Hin]; auto.
      * intros H x Hin. apply H. by right.
Qed.

Lemma getenv_set environ name :
  negb (truthy (getenv environ name)) = false <->
  exists value, environ !! name = Some value /\ value <> "".
Proof.
  unfold getenv. destruct (environ !! name) as [[|c v]|]; simpl.
  - split; [discriminate|]. by intros (v & [= <-] & H).
  - split; [|done]. intros _. by eexists.
  - split; [discriminate|]. by intros (v & H & _).
Qed.

(** X13.  Start-up: the loop is entered exactly when each of the three
    required variables is set to a value that is not empty (a variable
    set to the empty string counts as missing).  Otherwise the script
    exits with status 1 and names, in the order of the list, the
    variables that are missing. *)
Theorem startup_requires_all (environ : gmap string string) :
  (startup environ = RunMain <->
   forall name, In name required_env ->
     exists value, environ !! name = Some value /\ value <> "") /\
  (forall status printed,
     startup environ = Exit status printed ->
     status = 1%Z /\
     printed = [ "Missing required environment variables: "
                   +:+ join ", " (missing_env environ);
                 "Please add them to your .env file" ] /\
     forall name,
       In name (missing_env environ) <->
       In name required_env /\
       (environ !! name = None \/ environ !! name = Some "")).
Proof.
  split.
  - unfold startup.
    assert (Hnil : missing_env environ = [] <->
                   forall name, In name required_env ->
                     exists value, environ !! name = Some value /\ value <> "").
    { unfold missing_env. rewrite filter_nil_iff.
      split; intros H name Hin; apply getenv_set; auto. }
    destruct (missing_env environ) as [|m ms]; split; try done.
    + intros _. by apply Hnil.
    + intros H. apply Hnil in H. discriminate.
  - intros status printed. unfold startup.
    destruct (missing_env environ) as [|m ms] eqn:Hm; [discriminate|].
    intros [= <- <-]. repeat split.
    + rewrite <- Hm in H. unfold missing_env in H. by apply filter_In in H as [H _].
    + rewrite <- Hm in H. unfold missing_env in H. apply filter_In in H as [_ H].
      unfold getenv in H. destruct (environ !! name) as [[|c v]|]; simpl in H; auto.
      discriminate.
    + intros [Hin Hcase]. rewrite <- Hm. unfold missing_env. apply filter_In.
      split; [exact Hin|]. unfold getenv. by destruct Hcase as [-> | ->].
Qed.

Lemma startup_requires_all_witness :
  startup (<["GROQ_API_KEY" := "k"]> (<["TELEGRAM_BOT_TOKEN" := ""]> ∅))
  = Exit 1 [ "Missing required environment variables: TELEGRAM_BOT_TOKEN, TELEGRAM_CHAT_ID";
             "Please add them to your .env file" ] /\
  startup (<["GROQ_API_KEY" := "k"]>
             (<["TELEGRAM_BOT_TOKEN" := "t"]> (<["TELEGRAM_CHAT_ID" := "42"]> ∅)))
  = RunMain.
Proof.
  split; [vm_compute; reflexivity|].
  apply (startup_requires_all
           (<["GROQ_API_KEY" := "k"]>
              (<["TELEGRAM_BOT_TOKEN" := "t"]> (<["TELEGRAM_CHAT_ID" := "42"]> ∅)))).
  intros name [<-|[<-|[<-|[]]]]; eexists; (split; [vm_compute; reflexivity | discriminate]).
Defined.

(** ** Titles *)

Lemma drop_any_nil ws :
  (forall t, In t ws -> t <> []) -> drop_any ws [] = None.
Proof.
  intros Hne. induction ws as [|t ws IH]; simpl; [reflexivity|].
  destruct t as [|a t]; [by destruct (Hne [] (or_introl eq_refl))|].
  simpl. apply IH. intros t' Hin. apply Hne. by right.
Qed.

Lemma lstrip_with_done ws n s :
  (forall t, In t ws -> t <> []) ->
  List.length s <= n ->
  drop_any ws (lstrip_with ws n s) = None.
Proof.
  intros Hne. revert s. induction n as [|n IH]; intros s Hlen; simpl.
  - destruct s; [by apply drop_any_nil | simpl in Hlen; lia].
  - destruct (drop_any ws s) as [r|] eqn:Hd; [|exact Hd].
    apply IH. apply drop_any_app in Hd as (t & Hin & ->).
    rewrite length_app in Hlen. specialize (Hne t Hin).
    destruct t; [done | simpl in Hlen; lia].
Qed.

Lemma lstrip_with_suffix ws n s : exists pre, s = pre ++ lstrip_with ws n s.
Proof.
  revert s. induction n as [|n IH]; intros s; simpl; [by exists []|].
  destruct (drop_any ws s) as [r|] eqn:Hd; [|by exists []].
  apply drop_any_app in Hd as (t & _ & ->).
  destruct (IH r) as [pre Hpre]. exists (t ++ pre).
  rewrite <- app_assoc. by rewrite <- Hpre.
Qed.

Lemma drop_prefix_extend p s r x :
  drop_prefix p s = Some r -> drop_prefix p (s ++ x) = Some (r ++ x).
Proof.
  revert s. induction p as [|a p IH]; intros s; simpl.
  - by intros [= ->].
  - destruct s as [|b s]; [discriminate|]. simpl.
    destruct (Ascii.eqb a b); [apply IH | discriminate].
Qed.

Lemma drop_any_extend ws s x :
  is_Some (drop_any ws s) -> is_Some (drop_any ws (s ++ x)).
Proof.
  induction ws as [|t ws IH]; simpl; [done|].
  destruct (drop_prefix t s) as [r|] eqn:Hd.
  - intros _. by rewrite (drop_prefix_extend _ _ _ x Hd).
  - intros H. destruct (drop_prefix t (s ++ x)); [done | by apply IH].
Qed.

Lemma whitespace_tokens_nonempty t : In t ws_front \/ In t ws_back -> t <> [].
Proof.
  assert (Hall : forallb (fun t => negb (Nat.eqb (List.length t) 0))
                   (ws_front ++ ws_back) = true) by reflexivity.
  rewrite forallb_forall in Hall. intros Hin.
  apply in_or_app, Hall in Hin. by destruct t.
Qed.

Lemma strip_trimmed s : trimmed (strip s).
Proof.
  unfold trimmed, strip. rewrite list_ascii_of_string_of_list_ascii.
  set (l := list_ascii_of_string s).
  set (l1 := lstrip_with ws_front (List.length l) l).
  set (m := lstrip_with ws_back (List.length l1) (rev l1)).
  assert (H1 : drop_any ws_front l1 = None).
  { apply lstrip_with_done; [|done].
    intros t Hin. apply whitespace_tokens_nonempty. by left. }
  assert (Hm : drop_any ws_back m = None).
  { apply lstrip_with_done; [|by rewrite length_rev].
    intros t Hin. apply whitespace_tokens_nonempty. by right. }
  split; [|by rewrite rev_involutive].
  destruct (lstrip_with_suffix ws_back (List.length l1) (rev l1)) as [pre Hpre].
  fold m in Hpre.
  assert (Hl1 : l1 = rev m ++ rev pre).
  { rewrite <- rev_app_distr, <- Hpre. by rewrite rev_involutive. }
  apply eq_None_not_Some. intros Hsome.
  apply (drop_any_extend _ _ (rev pre)) in Hsome.
  rewrite <- Hl1, H1 in Hsome. by destruct Hsome.
Qed.

Lemma extract_content_shape w url st t d p :
  result (extract_content w url st) = Ret (t, d, p) ->
  (t = None /\ d = None /\ p = None) \/
  exists soup raw,
    title_detail soup = Some raw /\
    t = Some (strip raw) /\
    d = Some (match description soup with Some x => strip x | None => "" end) /\
    p = Some (join " " (map strip (normal soup))).
Proof.
  unfold extract_content, try_except, bind, session_get.
  destruct (session st); simpl; [|intros [= <- <- <-]; by left].
  destruct (http_get w (tick st) url) as [soup|e]; simpl;
    [|intros [= <- <- <-]; by left].
  destruct (title_detail soup) as [raw|] eqn:Hraw; simpl;
    intros [= <- <- <-]; [right | by left].
  by exists soup, raw.
Qed.

(** X14.  Titles and excerpts are trimmed: the title of every article
    [process_article] returns has no white-space character at either
    end, and its content is a trimmed excerpt, a newline and the body. *)
Theorem process_article_trims (w : World) (url article_type : string) (st : State)
    (article : Article) :
  result (process_article w url article_type st) = Ret (Some article) ->
  trimmed (a_title article) /\
  exists excerpt body,
    a_content article = excerpt +:+ nl +:+ body /\ trimmed excerpt.
Proof.
  intros Hres.
  destruct (extract_content_returns w url st) as [[[t d] p] Hex].
  rewrite (process_article_eq _ _ _ _ _ _ _ Hex) in Hres. simpl in Hres.
  destruct (truthy t && (truthy d || truthy p)) eqn:Htest; [|discriminate].
  injection Hres as <-. simpl.
  apply extract_content_shape in Hex
    as [(-> & _ & _) | (soup & raw & _ & -> & -> & ->)]; [discriminate|].
  simpl. split; [apply strip_trimmed|].
  eexists _, _. split; [reflexivity|].
  destruct (description soup); [apply strip_trimmed | by split].
Qed.

Lemma process_article_trims_witness :
  exists article,
    result (process_article all_up article_url "tin-xem-nhieu" online)
    = Ret (Some article) /\
    a_title article = "Tieu de" /\ trimmed (a_title article).
Proof.
  eexists. split; [reflexivity|]. split; [reflexivity|].
  eapply (process_article_trims all_up article_url "tin-xem-nhieu" online).
  reflexivity.
Defined.
